(** * Game of Life for the WHY2025 badge: a shallow embedding of
      [gameoflife.c] and the properties of its automaton engine, frame
      driver and input handler.

    Conventions of the embedding.
    - C integers are modelled as [Z]. Where the source computes in an
      unsigned type the wrap-around is written out ([to_unsigned],
      [to_Uint64], [to_uchar]). Arithmetic on [int] that provably stays far
      inside the 32-bit range (coordinates in [-1, 24], sums of eight bytes)
      is written without a wrap.
    - The two [unsigned char] arrays of [GolContext] are lists of [Z];
      [a[i]] is [array_get a i] and [a[i] = v] is [<[i:=v]> a].  A
      well-formed context ([wf_ctx]) has both arrays of the declared
      length, and the program only reads and writes inside them.
    - [SDL_rand], [SDL_GetTicks] and the renderer are external: the random
      generator is a section variable, the tick count is an argument of the
      callback, and the renderer is a record that logs what it is asked to
      draw.
    - [float] coordinates of [SDL_FRect] only ever hold small integers
      (at most 23 * 24), which [float] represents exactly; they are
      modelled as [Z]. *)

From Stdlib Require Import String ZArith List Lia Bool.
From stdpp Require Import base tactics option list sorting.

Local Open Scope Z_scope.

(** ** Constants of the source *)

Definition STEP_RATE_IN_MILLISECONDS : Z := 250.
Definition BLOCK_SIZE_IN_PIXELS : Z := 24.
Definition GAME_WIDTH : Z := 24.
Definition GAME_HEIGHT : Z := 18.
Definition SDL_WINDOW_WIDTH : Z := BLOCK_SIZE_IN_PIXELS * GAME_WIDTH.
Definition SDL_WINDOW_HEIGHT : Z := BLOCK_SIZE_IN_PIXELS * GAME_HEIGHT.

(** Number of cells of one array, [GAME_WIDTH * GAME_HEIGHT]. *)
Definition GAME_CELLS : Z := GAME_WIDTH * GAME_HEIGHT.

(** ** Machine integers *)

(** Conversion to [unsigned] (32 bits), to [Uint64] and to
    [unsigned char]. *)
Definition to_unsigned (z : Z) : Z := z mod 2 ^ 32.
Definition to_Uint64 (z : Z) : Z := z mod 2 ^ 64.
Definition to_uchar (z : Z) : Z := z mod 256.

(** The values of the C type [int]. *)
Definition is_int (z : Z) : Prop := - 2 ^ 31 <= z < 2 ^ 31.

(** The values of the C type [Uint64]. *)
Definition is_Uint64 (z : Z) : Prop := 0 <= z < 2 ^ 64.

(** ** The automaton engine *)

Record GolContext : Type := mkGol {
  cells : list Z;
  newCells : list Z
}.

(** [a[i]] on a byte array. *)
Definition array_get (a : list Z) (i : nat) : Z := default 0 (a !! i).

(** [SDL_zeroa(a)] on an array of [GAME_WIDTH * GAME_HEIGHT] bytes. *)
Definition SDL_zeroa : list Z := replicate (Z.to_nat GAME_CELLS) 0.

(** The array index [x + y * GAME_WIDTH], computed in [unsigned]. *)
Definition cell_index (x y : Z) : nat :=
  Z.to_nat (to_unsigned (x + y * GAME_WIDTH)).

(** [getAtPos]: the comparisons against the unsigned constants convert
    the [int] operand to [unsigned]. *)
Definition getAtPos (ctx : GolContext) (x y : Z) : Z :=
  if (x <? 0) || (GAME_WIDTH <=? to_unsigned x)
     || (y <? 0) || (GAME_HEIGHT <=? to_unsigned y)
  then 0
  else array_get (cells ctx) (cell_index x y).

(** The local variable [neighbors] of [gol_step] at cell [(x, y)]. *)
Definition neighbors (ctx : GolContext) (x y : Z) : Z :=
  getAtPos ctx (x - 1) (y - 1)
  + getAtPos ctx x (y - 1)
  + getAtPos ctx (x + 1) (y - 1)
  + getAtPos ctx (x - 1) y
  + getAtPos ctx (x + 1) y
  + getAtPos ctx (x - 1) (y + 1)
  + getAtPos ctx x (y + 1)
  + getAtPos ctx (x + 1) (y + 1).

(** [ctx->newCells[i] = v] and [ctx->cells[i] = v] for a byte [v]; an
    [int] right-hand side is converted with [to_uchar] by the caller. *)
Definition set_newCell (ctx : GolContext) (i : nat) (v : Z) : GolContext :=
  mkGol (cells ctx) (<[i := v]> (newCells ctx)).

Definition set_cell (ctx : GolContext) (i : nat) (v : Z) : GolContext :=
  mkGol (<[i := v]> (cells ctx)) (newCells ctx).

(** The body of the inner loop of [gol_step]: two independent [if]s. *)
Definition gol_step_cell (ctx : GolContext) (x y : Z) : GolContext :=
  let n := neighbors ctx x y in
  let ctx1 :=
    if n =? 2
    then set_newCell ctx (cell_index x y) (to_uchar (getAtPos ctx x y))
    else ctx in
  if n =? 3 then set_newCell ctx1 (cell_index x y) (to_uchar 1) else ctx1.

(** The nested loops of [gol_step]: [x] outermost, [y] innermost. *)
Definition gol_step_scan (ctx : GolContext) : GolContext :=
  foldl (fun c x => foldl (fun c' y => gol_step_cell c' x y) c
                          (seqZ 0 GAME_HEIGHT))
        ctx (seqZ 0 GAME_WIDTH).

(** The final loop of [gol_step]: [cells[i] = newCells[i]]. *)
Definition gol_step_copy (ctx : GolContext) : GolContext :=
  foldl (fun c i => set_cell c (Z.to_nat i)
                             (array_get (newCells c) (Z.to_nat i)))
        ctx (seqZ 0 GAME_CELLS).

Definition gol_step (ctx : GolContext) : GolContext :=
  gol_step_copy (gol_step_scan (mkGol (cells ctx) SDL_zeroa)).

(** ** SDL: results, events, rectangles and the renderer *)

Inductive SDL_AppResult : Type :=
  | SDL_APP_CONTINUE
  | SDL_APP_SUCCESS
  | SDL_APP_FAILURE.

(** Scancodes and event types, with the values of SDL's headers. *)
Definition SDL_SCANCODE_Q : Z := 20.
Definition SDL_SCANCODE_R : Z := 21.
Definition SDL_SCANCODE_ESCAPE : Z := 41.
Definition SDL_EVENT_QUIT : Z := 256.
Definition SDL_EVENT_KEY_DOWN : Z := 768.
Definition SDL_ALPHA_OPAQUE : Z := 255.

(** The two fields of [SDL_Event] that the program reads: [type] and
    [key.scancode]. *)
Record SDL_Event : Type := mkEvent {
  event_type : Z;
  key_scancode : Z
}.

(** [SDL_FRect].  A field that was never assigned holds an indeterminate
    value, [None]. *)
Record SDL_FRect : Type := mkRect {
  rect_x : option Z;
  rect_y : option Z;
  rect_w : option Z;
  rect_h : option Z
}.

Definition uninitialized_rect : SDL_FRect := mkRect None None None None.

Record Color : Type := mkColor {
  red : Z;
  green : Z;
  blue : Z;
  alpha : Z
}.

(** What the renderer was asked to draw. *)
Inductive RenderOp : Type :=
  | OpClear (c : Color)
  | OpFillRect (r : SDL_FRect) (c : Color)
  | OpPresent.

(** The renderer: its current draw colour and the operations issued so
    far, oldest first. *)
Record SDL_Renderer : Type := mkRenderer {
  draw_color : Color;
  ops : list RenderOp
}.

Definition SDL_SetRenderDrawColor (rd : SDL_Renderer) (r g b a : Z)
  : SDL_Renderer :=
  mkRenderer (mkColor r g b a) (ops rd).

Definition SDL_RenderClear (rd : SDL_Renderer) : SDL_Renderer :=
  mkRenderer (draw_color rd) (ops rd ++ [OpClear (draw_color rd)]).

Definition SDL_RenderFillRect (rd : SDL_Renderer) (r : SDL_FRect)
  : SDL_Renderer :=
  mkRenderer (draw_color rd) (ops rd ++ [OpFillRect r (draw_color rd)]).

Definition SDL_RenderPresent (rd : SDL_Renderer) : SDL_Renderer :=
  mkRenderer (draw_color rd) (ops rd ++ [OpPresent]).

(** The window, as [SDL_CreateWindow] was asked to make it. *)
Record SDL_Window : Type := mkWindow {
  window_title : string;
  window_w : Z;
  window_h : Z
}.

(** ** The frame driver *)

Record AppState : Type := mkApp {
  window : SDL_Window;
  renderer : SDL_Renderer;
  gol_ctx : GolContext;
  last_step : Z
}.

(** Conversion to [short], the parameter type of [set_rect_xy_]. *)
Definition to_short (z : Z) : Z := (z + 2 ^ 15) mod 2 ^ 16 - 2 ^ 15.

Definition set_rect_xy_ (r : SDL_FRect) (x y : Z) : SDL_FRect :=
  mkRect (Some (to_short x * BLOCK_SIZE_IN_PIXELS))
         (Some (to_short y * BLOCK_SIZE_IN_PIXELS))
         (rect_w r) (rect_h r).

(** The body of the [while] loop of [SDL_AppIterate]. *)
Definition catch_up_once (st : AppState) : AppState :=
  mkApp (window st) (renderer st) (gol_step (gol_ctx st))
        (to_Uint64 (last_step st + STEP_RATE_IN_MILLISECONDS)).

(** The [while] loop of [SDL_AppIterate].  The subtraction and the
    comparison are in [Uint64].  [fuel] bounds the number of iterations
    ([None] when it runs out); the [nat] of the result counts the calls of
    [gol_step]. *)
Fixpoint catch_up (fuel : nat) (now : Z) (st : AppState)
  : option (nat * AppState) :=
  if STEP_RATE_IN_MILLISECONDS <=? to_Uint64 (now - last_step st) then
    match fuel with
    | O => None
    | S fuel' =>
        match catch_up fuel' now (catch_up_once st) with
        | Some (k, st') => Some (S k, st')
        | None => None
        end
    end
  else Some (O, st).

(** The body of the inner drawing loop: cell [(i, j)], with the renderer
    and the local rectangle [r]. *)
Definition draw_cell (ctx : GolContext) (st : SDL_Renderer * SDL_FRect)
    (i j : Z) : SDL_Renderer * SDL_FRect :=
  if array_get (cells ctx) (cell_index i j) =? 0 then st
  else
    let r := set_rect_xy_ st.2 i j in
    (SDL_RenderFillRect st.1 r, r).

(** The nested drawing loops: [i] outermost, [j] innermost. *)
Definition draw_cells (ctx : GolContext) (st : SDL_Renderer * SDL_FRect)
  : SDL_Renderer * SDL_FRect :=
  foldl (fun s i => foldl (fun s' j => draw_cell ctx s' i j) s
                          (seqZ 0 GAME_HEIGHT))
        st (seqZ 0 GAME_WIDTH).

(** Lines 117 to 131 of [SDL_AppIterate]: the drawing of one frame. *)
Definition draw_frame (ctx : GolContext) (rd : SDL_Renderer)
  : SDL_Renderer :=
  let r := mkRect (rect_x uninitialized_rect) (rect_y uninitialized_rect)
                  (Some (BLOCK_SIZE_IN_PIXELS - 1))
                  (Some (BLOCK_SIZE_IN_PIXELS - 1)) in
  let rd := SDL_SetRenderDrawColor rd 96 96 96 SDL_ALPHA_OPAQUE in
  let rd := SDL_RenderClear rd in
  let rd := SDL_SetRenderDrawColor rd 255 255 0 SDL_ALPHA_OPAQUE in
  let (rd, r) := draw_cells ctx (rd, r) in
  let rd := SDL_RenderFillRect rd r in
  SDL_RenderPresent rd.

(** What one call of [SDL_AppIterate] leaves: its result, the state, and
    the number of calls of [gol_step] it made. *)
Record FrameOutcome : Type := mkOutcome {
  frame_result : SDL_AppResult;
  frame_state : AppState;
  frame_steps : nat
}.

(** [SDL_AppIterate], with [now] the value that [SDL_GetTicks] returns. *)
Definition SDL_AppIterate (fuel : nat) (now : Z) (st : AppState)
  : option FrameOutcome :=
  match catch_up fuel now st with
  | None => None
  | Some (k, st') =>
      Some (mkOutcome SDL_APP_CONTINUE
              (mkApp (window st')
                     (draw_frame (gol_ctx st') (renderer st'))
                     (gol_ctx st') (last_step st'))
              k)
  end.

(** A sequence of frames at the tick counts [nows]. *)
Fixpoint run_frames (fuel : nat) (nows : list Z) (st : AppState)
  : option AppState :=
  match nows with
  | [] => Some st
  | now :: rest =>
      match SDL_AppIterate fuel now st with
      | None => None
      | Some out => run_frames fuel rest (frame_state out)
      end
  end.

(** ** The random generator, and the code that draws from it

    [SDL_rand] is external.  A generator is a state type with the function
    that [SDL_rand(n)] computes on it; [SDL_rand_range] is the contract of
    SDL's documentation, a result in [[0, n)]. *)

Section Random.

Variable RngState : Type.
Variable SDL_rand : Z -> RngState -> Z * RngState.

Definition SDL_rand_range : Prop :=
  forall n g, 0 < n -> 0 <= (SDL_rand n g).1 < n.

(** One iteration of the loop of [gol_initialize]. *)
Definition gol_initialize_draw (st : GolContext * RngState)
  : GolContext * RngState :=
  let (n, g) := SDL_rand GAME_CELLS st.2 in
  (set_cell st.1 (Z.to_nat n) (to_uchar 1), g).

(** [gol_initialize]: the loop runs for [i] from 0 while
    [i < GAME_WIDTH * GAME_HEIGHT / 2]. *)
Definition gol_initialize (ctx : GolContext) (g : RngState)
  : GolContext * RngState :=
  foldl (fun st (_ : Z) => gol_initialize_draw st)
        (mkGol SDL_zeroa (newCells ctx), g)
        (seqZ 0 (GAME_CELLS / 2)).

(** The values that [k] successive calls [SDL_rand(n)] return from
    generator state [g], and the state they leave. *)
Fixpoint rand_draws (k : nat) (n : Z) (g : RngState) : list Z :=
  match k with
  | O => []
  | S k' => (SDL_rand n g).1 :: rand_draws k' n (SDL_rand n g).2
  end.

Fixpoint rand_after (k : nat) (n : Z) (g : RngState) : RngState :=
  match k with
  | O => g
  | S k' => rand_after k' n (SDL_rand n g).2
  end.

Definition handle_key_event_ (ctx : GolContext) (key_code : Z)
    (g : RngState) : SDL_AppResult * GolContext * RngState :=
  if key_code =? SDL_SCANCODE_ESCAPE then (SDL_APP_SUCCESS, ctx, g)
  else if key_code =? SDL_SCANCODE_Q then (SDL_APP_SUCCESS, ctx, g)
  else if key_code =? SDL_SCANCODE_R then
    let (ctx', g') := gol_initialize ctx g in (SDL_APP_CONTINUE, ctx', g')
  else (SDL_APP_CONTINUE, ctx, g).

Definition SDL_AppEvent (st : AppState) (event : SDL_Event) (g : RngState)
  : SDL_AppResult * AppState * RngState :=
  if event_type event =? SDL_EVENT_QUIT then (SDL_APP_SUCCESS, st, g)
  else if event_type event =? SDL_EVENT_KEY_DOWN then
    let '(res, ctx', g') :=
      handle_key_event_ (gol_ctx st) (key_scancode event) g in
    (res, mkApp (window st) (renderer st) ctx' (last_step st), g')
  else (SDL_APP_CONTINUE, st, g).

(** What the SDL calls of [SDL_AppInit] answer. *)
Record InitEnv : Type := mkInitEnv {
  set_metadata_ok : bool;
  set_metadata_property_ok : nat -> bool;
  sdl_init_ok : bool;
  calloc_ok : bool;
  create_window_ok : bool;
  create_renderer : option SDL_Renderer;
  init_ticks : Z
}.

(** [SDL_AppInit].  The printing is left out.  The state is returned when
    initialisation succeeds; on failure the callbacks modelled here never
    run. *)
Definition SDL_AppInit (env : InitEnv) (g : RngState)
  : SDL_AppResult * option AppState * RngState :=
  if negb (set_metadata_ok env) then (SDL_APP_FAILURE, None, g)
  else if negb (forallb (set_metadata_property_ok env) (seq 0 4))
  then (SDL_APP_FAILURE, None, g)
  else if negb (sdl_init_ok env) then (SDL_APP_FAILURE, None, g)
  else if negb (calloc_ok env) then (SDL_APP_FAILURE, None, g)
  else if negb (create_window_ok env) then (SDL_APP_FAILURE, None, g)
  else
    match create_renderer env with
    | None => (SDL_APP_FAILURE, None, g)
    | Some rd =>
        let (ctx, g') := gol_initialize (mkGol SDL_zeroa SDL_zeroa) g in
        (SDL_APP_CONTINUE,
         Some (mkApp (mkWindow "Game of Life"%string SDL_WINDOW_WIDTH
                               SDL_WINDOW_HEIGHT)
                     rd ctx (init_ticks env)),
         g')
    end.

End Random.

Arguments SDL_rand_range {RngState} SDL_rand.
Arguments gol_initialize_draw {RngState} SDL_rand st.
Arguments gol_initialize {RngState} SDL_rand ctx g.
Arguments rand_draws {RngState} SDL_rand k n g.
Arguments rand_after {RngState} SDL_rand k n g.
Arguments handle_key_event_ {RngState} SDL_rand ctx key_code g.
Arguments SDL_AppEvent {RngState} SDL_rand st event g.
Arguments SDL_AppInit {RngState} SDL_rand env g.

(** ** The life cycle: the state block of [SDL_AppInit], and [SDL_AppQuit] *)

(** The block that [SDL_calloc] returns, as [SDL_AppInit] fills it: the
    two pointers are [NULL] ([None]) until the calls that set them
    succeed. *)
Record RawAppState : Type := mkRaw {
  raw_window : option SDL_Window;
  raw_renderer : option SDL_Renderer;
  raw_gol_ctx : GolContext;
  raw_last_step : Z
}.

(** What the program acquires and has to give back. *)
Inductive Resource : Type :=
  | ResState
  | ResWindow
  | ResRenderer.

#[global] Instance Resource_eq_dec : EqDecision Resource.
Proof. solve_decision. Defined.

(** The block right after [SDL_calloc]: all bytes zero. *)
Definition zeroed_state : RawAppState :=
  mkRaw None None (mkGol SDL_zeroa SDL_zeroa) 0.

(** [SDL_AppInit] once more, now with [*appstate] as every path leaves it
    ([None] while it is still [NULL]) and with the list of what the
    successful calls of [SDL_calloc], [SDL_CreateWindow] and
    [SDL_CreateRenderer] acquired, oldest first. *)
Definition SDL_AppInit_raw {RngState : Type}
    (SDL_rand : Z -> RngState -> Z * RngState) (env : InitEnv)
    (g : RngState)
  : SDL_AppResult * option RawAppState * list Resource * RngState :=
  if negb (set_metadata_ok env) then (SDL_APP_FAILURE, None, [], g)
  else if negb (forallb (set_metadata_property_ok env) (seq 0 4))
  then (SDL_APP_FAILURE, None, [], g)
  else if negb (sdl_init_ok env) then (SDL_APP_FAILURE, None, [], g)
  else if negb (calloc_ok env) then (SDL_APP_FAILURE, None, [], g)
  else if negb (create_window_ok env)
  then (SDL_APP_FAILURE, Some zeroed_state, [ResState], g)
  else
    let w := mkWindow "Game of Life"%string SDL_WINDOW_WIDTH
                      SDL_WINDOW_HEIGHT in
    match create_renderer env with
    | None =>
        (SDL_APP_FAILURE,
         Some (mkRaw (Some w) None (raw_gol_ctx zeroed_state)
                     (raw_last_step zeroed_state)),
         [ResState; ResWindow], g)
    | Some rd =>
        let (ctx, g') :=
          gol_initialize SDL_rand (raw_gol_ctx zeroed_state) g in
        (SDL_APP_CONTINUE,
         Some (mkRaw (Some w) (Some rd) ctx (init_ticks env)),
         [ResState; ResWindow; ResRenderer], g')
    end.

(** [SDL_DestroyRenderer] and [SDL_DestroyWindow] do nothing on [NULL]. *)
Definition SDL_DestroyRenderer (r : option SDL_Renderer) : list Resource :=
  match r with Some _ => [ResRenderer] | None => [] end.

Definition SDL_DestroyWindow (w : option SDL_Window) : list Resource :=
  match w with Some _ => [ResWindow] | None => [] end.

(** [SDL_AppQuit]: what it releases, in the order of its calls. *)
Definition SDL_AppQuit (appstate : option RawAppState)
    (result : SDL_AppResult) : list Resource :=
  match appstate with
  | None => []
  | Some st =>
      SDL_DestroyRenderer (raw_renderer st)
      ++ SDL_DestroyWindow (raw_window st)
      ++ [ResState]
  end.

(** The block behind a state that the callbacks work on. *)
Definition raw_of_app (st : AppState) : RawAppState :=
  mkRaw (Some (window st)) (Some (renderer st)) (gol_ctx st) (last_step st).

(** ** The run of the application

    SDL calls [SDL_AppIterate] and [SDL_AppEvent] one at a time for as
    long as they return [SDL_APP_CONTINUE]. *)

Inductive Callback : Type :=
  | CbFrame (now : Z)
  | CbEvent (event : SDL_Event).

Fixpoint run_app {RngState : Type}
    (SDL_rand : Z -> RngState -> Z * RngState) (fuel : nat)
    (cbs : list Callback) (st : AppState) (g : RngState)
  : option (SDL_AppResult * AppState * RngState) :=
  match cbs with
  | [] => Some (SDL_APP_CONTINUE, st, g)
  | CbFrame now :: rest =>
      match SDL_AppIterate fuel now st with
      | None => None
      | Some out =>
          match frame_result out with
          | SDL_APP_CONTINUE =>
              run_app SDL_rand fuel rest (frame_state out) g
          | res => Some (res, frame_state out, g)
          end
      end
  | CbEvent event :: rest =>
      let '(res, st', g') := SDL_AppEvent SDL_rand st event g in
      match res with
      | SDL_APP_CONTINUE => run_app SDL_rand fuel rest st' g'
      | _ => Some (res, st', g')
      end
  end.

(** The tick counts of the frames of a run. *)
Definition frame_ticks (cbs : list Callback) : list Z :=
  omap (fun cb => match cb with CbFrame now => Some now | _ => None end) cbs.

(** ** Example data *)

(** A generator in the style of a 64-bit linear congruential generator:
    the high 32 bits of the state, scaled to [[0, n)]. *)
Definition lcg_rand (n : Z) (g : Z) : Z * Z :=
  let g' := to_Uint64 (g * 4280078389 + 5) in
  (Z.shiftr (Z.shiftr g' 32 * n) 32, g').

(** A grid given by the list of its live positions. *)
Definition grid_of (alive : list (Z * Z)) : list Z :=
  foldl (fun g p => <[cell_index p.1 p.2 := 1]> g) SDL_zeroa alive.

Definition blinker_v : GolContext :=
  mkGol (grid_of [(1, 0); (1, 1); (1, 2)]) SDL_zeroa.
Definition blinker_h : GolContext :=
  mkGol (grid_of [(0, 1); (1, 1); (2, 1)]) SDL_zeroa.

Definition blank_renderer : SDL_Renderer :=
  mkRenderer (mkColor 0 0 0 0) [].

Definition example_window : SDL_Window :=
  mkWindow "Game of Life"%string SDL_WINDOW_WIDTH SDL_WINDOW_HEIGHT.

Definition example_app (ctx : GolContext) (t : Z) : AppState :=
  mkApp example_window blank_renderer ctx t.

(** ** Vocabulary of the specification *)

Definition Dead : Z := 0.
Definition Alive : Z := 1.

(** The positions of the grid, [[0, width) x [0, height)]. *)
Definition in_grid (x y : Z) : Prop :=
  (0 <= x < GAME_WIDTH) /\ (0 <= y < GAME_HEIGHT).

#[global] Instance in_grid_dec x y : Decision (in_grid x y).
Proof. unfold in_grid. apply _. Defined.

(** An array of the declared size; a context whose two arrays are. *)
Definition wf_grid (g : list Z) : Prop := length g = Z.to_nat GAME_CELLS.

Definition wf_ctx (ctx : GolContext) : Prop :=
  wf_grid (cells ctx) /\ wf_grid (newCells ctx).

(** Every cell is [Dead] or [Alive]. *)
Definition binary_cell (c : Z) : Prop := c = Dead \/ c = Alive.
Definition binary_grid (g : list Z) : Prop := Forall binary_cell g.

#[global] Instance binary_cell_dec c : Decision (binary_cell c).
Proof. unfold binary_cell. apply _. Defined.

(** The place of cell [(x, y)] in the array, without machine arithmetic. *)
Definition position (x y : Z) : nat := Z.to_nat (x + y * GAME_WIDTH).

(** The specification's [get]: the stored cell inside the grid, [Dead]
    outside of it. *)
Definition cell_at (g : list Z) (x y : Z) : Z :=
  if bool_decide (in_grid x y) then array_get g (position x y) else Dead.

(** The offsets of the eight adjacent positions. *)
Definition adjacent8 : list (Z * Z) :=
  [(-1, -1); (0, -1); (1, -1); (-1, 0); (1, 0); (-1, 1); (0, 1); (1, 1)].

Definition sumZ (l : list Z) : Z := foldr Z.add 0 l.

(** The number of live cells among the eight adjacent positions. *)
Definition live_neighbours (g : list Z) (x y : Z) : Z :=
  Z.of_nat (length (filter (fun d => cell_at g (x + d.1) (y + d.2) = Alive)
                           adjacent8)).

(** The rule of Life, as the specification words it. *)
Definition life_rule (c n : Z) : Z :=
  if bool_decide (c = Alive)
  then (if bool_decide (n = 2 \/ n = 3) then Alive else Dead)
  else (if bool_decide (n = 3) then Alive else Dead).

(** The number of live cells of a grid, and of cells that the drawing
    loop takes for live (any non-zero byte). *)
Definition count_alive (g : list Z) : nat :=
  length (filter (fun c => c = Alive) g).

Definition count_nonzero (g : list Z) : nat :=
  length (filter (fun c => c <> 0) g).

(** All positions, in the order in which the loops of [gol_step] and of
    [SDL_AppIterate] visit them. *)
Definition scan_order (xs ys : list Z) : list (Z * Z) :=
  x ← xs; (fun y => (x, y)) <$> ys.

Definition all_positions : list (Z * Z) :=
  scan_order (seqZ 0 GAME_WIDTH) (seqZ 0 GAME_HEIGHT).

(** The value that [gol_step] leaves in [newCells] for cell [(x, y)]. *)
Definition next_cell (ctx : GolContext) (x y : Z) : Z :=
  if neighbors ctx x y =? 3 then to_uchar 1
  else if neighbors ctx x y =? 2 then to_uchar (getAtPos ctx x y)
  else 0.

(** The array [newCells] after the nested loops of [gol_step]. *)
Definition scanned_cells (ctx : GolContext) : list Z :=
  newCells (foldl (fun c p => gol_step_cell c p.1 p.2)
                  (mkGol (cells ctx) SDL_zeroa) all_positions).

(** [cells[n] = 1] for each drawn [n], in order. *)
Definition mark_alive (ds : list Z) (g : list Z) : list Z :=
  foldl (fun l n => <[Z.to_nat n := to_uchar 1]> l) g ds.

(** A number of iterations that the catch-up loop never exceeds: the
    [Uint64] difference is below [2 ^ 64]. *)
Definition max_catch_up : nat :=
  Z.to_nat (2 ^ 64 / STEP_RATE_IN_MILLISECONDS).

(** The events that ask to quit, and the one that restarts. *)
Definition is_quit_event (ev : SDL_Event) : Prop :=
  event_type ev = SDL_EVENT_QUIT
  \/ (event_type ev = SDL_EVENT_KEY_DOWN
      /\ (key_scancode ev = SDL_SCANCODE_ESCAPE
          \/ key_scancode ev = SDL_SCANCODE_Q)).

Definition is_restart_event (ev : SDL_Event) : Prop :=
  event_type ev = SDL_EVENT_KEY_DOWN /\ key_scancode ev = SDL_SCANCODE_R.

(** The colours and the square of the rendering contract. *)
Definition background : Color := mkColor 96 96 96 255.
Definition foreground : Color := mkColor 255 255 0 255.

Definition cell_square (p : Z * Z) : SDL_FRect :=
  mkRect (Some (p.1 * BLOCK_SIZE_IN_PIXELS))
         (Some (p.2 * BLOCK_SIZE_IN_PIXELS))
         (Some (BLOCK_SIZE_IN_PIXELS - 1))
         (Some (BLOCK_SIZE_IN_PIXELS - 1)).

(** The positions that the drawing loops fill, in the order of the
    loops: those whose byte is not zero. *)
Definition drawn_positions (ctx : GolContext) : list (Z * Z) :=
  filter (fun p => array_get (cells ctx) (cell_index p.1 p.2) <> 0)
         all_positions.

(** The rectangle that the local [r] of [SDL_AppIterate] holds after the
    drawing loops: the square of the last position drawn, or the initial
    one with its indeterminate origin. *)
Definition last_rect (ctx : GolContext) : SDL_FRect :=
  default (mkRect None None (Some (BLOCK_SIZE_IN_PIXELS - 1))
                  (Some (BLOCK_SIZE_IN_PIXELS - 1)))
          (cell_square <$> last (drawn_positions ctx)).

Definition is_fill (op : RenderOp) : Prop :=
  match op with OpFillRect _ _ => True | _ => False end.

#[global] Instance is_fill_dec op : Decision (is_fill op).
Proof. destruct op; simpl; apply _. Defined.

(** The sum of the bytes at the eight adjacent positions. *)
Definition neighbour_sum (g : list Z) (x y : Z) : Z :=
  sumZ ((fun d => cell_at g (x + d.1) (y + d.2)) <$> adjacent8).

(** What [gol_step] makes of a cell with byte [c] whose adjacent bytes
    sum to [s]. *)
Definition byte_rule (c s : Z) : Z :=
  if s =? 3 then 1 else if s =? 2 then to_uchar c else 0.

(** The values of the C type [unsigned char]. *)
Definition is_uchar (c : Z) : Prop := 0 <= c < 256.

(** The grid that holds [f x y] at position [(x, y)]. *)
Definition grid_init (f : Z -> Z -> Z) : list Z :=
  (fun k : nat => f (Z.of_nat k mod GAME_WIDTH) (Z.of_nat k / GAME_WIDTH))
    <$> seq 0 (Z.to_nat GAME_CELLS).

(** A grid mirrored left to right, and top to bottom. *)
Definition flip_x (g : list Z) : list Z :=
  grid_init (fun x y => cell_at g (GAME_WIDTH - 1 - x) y).

Definition flip_y (g : list Z) : list Z :=
  grid_init (fun x y => cell_at g x (GAME_HEIGHT - 1 - y)).

(** A rectangle with all four fields assigned that lies in the window. *)
Definition rect_inside_window (r : SDL_FRect) : Prop :=
  match rect_x r, rect_y r, rect_w r, rect_h r with
  | Some x, Some y, Some w, Some h =>
      0 <= x /\ x + w <= SDL_WINDOW_WIDTH
      /\ 0 <= y /\ y + h <= SDL_WINDOW_HEIGHT
  | _, _, _, _ => False
  end.

(** Two rectangles with at least one free pixel column or row between
    them. *)
Definition rects_apart (r1 r2 : SDL_FRect) : Prop :=
  match rect_x r1, rect_y r1, rect_w r1, rect_h r1,
        rect_x r2, rect_y r2, rect_w r2, rect_h r2 with
  | Some x1, Some y1, Some w1, Some h1, Some x2, Some y2, Some w2, Some h2 =>
      x1 + w1 < x2 \/ x2 + w2 < x1 \/ y1 + h1 < y2 \/ y2 + h2 < y1
  | _, _, _, _, _, _, _, _ => False
  end.

(** Every call of [SDL_AppInit] that can fail succeeds. *)
Definition init_succeeds (env : InitEnv) : Prop :=
  set_metadata_ok env = true
  /\ (forall i : nat, (i < 4)%nat -> set_metadata_property_ok env i = true)
  /\ sdl_init_ok env = true
  /\ calloc_ok env = true
  /\ create_window_ok env = true
  /\ is_Some (create_renderer env).

(** * Properties *)

(** ** Machine arithmetic on the grid *)

Lemma array_get_lookup (a : list Z) (i : nat) :
  (i < length a)%nat -> a !! i = Some (array_get a i).
Proof.
  intros H. unfold array_get.
  destruct (lookup_lt_is_Some_2 a i H) as [v ->]. reflexivity.
Qed.

Lemma to_unsigned_small z : 0 <= z < 2 ^ 32 -> to_unsigned z = z.
Proof. intros H. unfold to_unsigned. apply Z.mod_small. exact H. Qed.

Lemma cell_index_position x y :
  in_grid x y -> cell_index x y = position x y.
Proof.
  intros [Hx Hy]. unfold cell_index, position, GAME_WIDTH, GAME_HEIGHT in *.
  rewrite to_unsigned_small; [reflexivity | lia].
Qed.

Lemma position_lt x y : in_grid x y -> (position x y < Z.to_nat GAME_CELLS)%nat.
Proof.
  intros [Hx Hy]. unfold position, GAME_CELLS, GAME_WIDTH, GAME_HEIGHT in *.
  lia.
Qed.

Lemma getAtPos_outside ctx x y :
  is_int x -> is_int y -> ~ in_grid x y -> getAtPos ctx x y = 0.
Proof.
  unfold is_int, in_grid, getAtPos, GAME_WIDTH, GAME_HEIGHT.
  intros Hx Hy Hout.
  destruct (x <? 0) eqn:Ex; [reflexivity |].
  apply Z.ltb_ge in Ex.
  rewrite (to_unsigned_small x) by lia.
  destruct (24 <=? x) eqn:Ex'; [reflexivity |].
  apply Z.leb_gt in Ex'.
  destruct (y <? 0) eqn:Ey; [reflexivity |].
  apply Z.ltb_ge in Ey.
  rewrite (to_unsigned_small y) by lia.
  destruct (18 <=? y) eqn:Ey'; [reflexivity |].
  apply Z.leb_gt in Ey'. lia.
Qed.

Lemma getAtPos_inside ctx x y :
  in_grid x y -> getAtPos ctx x y = array_get (cells ctx) (position x y).
Proof.
  intros Hin. rewrite <- (cell_index_position x y Hin).
  destruct Hin as [Hx Hy].
  unfold getAtPos, GAME_WIDTH, GAME_HEIGHT in *.
  rewrite (to_unsigned_small x), (to_unsigned_small y) by lia.
  replace (x <? 0) with false by (symmetry; apply Z.ltb_ge; lia).
  replace (24 <=? x) with false by (symmetry; apply Z.leb_gt; lia).
  replace (y <? 0) with false by (symmetry; apply Z.ltb_ge; lia).
  replace (18 <=? y) with false by (symmetry; apply Z.leb_gt; lia).
  reflexivity.
Qed.

Lemma getAtPos_cell_at ctx x y :
  is_int x -> is_int y -> getAtPos ctx x y = cell_at (cells ctx) x y.
Proof.
  intros Hx Hy. unfold cell_at. case_bool_decide as Hin.
  - apply getAtPos_inside, Hin.
  - apply getAtPos_outside; assumption.
Qed.

Lemma in_grid_is_int x y dx dy :
  in_grid x y -> -1 <= dx <= 1 -> -1 <= dy <= 1 ->
  is_int (x + dx) /\ is_int (y + dy).
Proof.
  unfold in_grid, is_int, GAME_WIDTH, GAME_HEIGHT. lia.
Qed.

Lemma neighbors_sum ctx x y :
  in_grid x y ->
  neighbors ctx x y
  = sumZ ((fun d => cell_at (cells ctx) (x + d.1) (y + d.2)) <$> adjacent8).
Proof.
  intros Hin. unfold neighbors, sumZ, adjacent8. simpl.
  replace (x - 1) with (x + -1) by lia.
  replace (y - 1) with (y + -1) by lia.
  rewrite !Z.add_0_r.
  repeat match goal with
  | |- context [getAtPos ctx (x + ?a) (y + ?b)] =>
      rewrite (getAtPos_cell_at ctx (x + a) (y + b))
        by (apply (in_grid_is_int x y a b Hin); lia)
  | |- context [getAtPos ctx x (y + ?b)] =>
      replace (getAtPos ctx x (y + b)) with (getAtPos ctx (x + 0) (y + b))
        by (f_equal; lia)
  | |- context [getAtPos ctx (x + ?a) y] =>
      replace (getAtPos ctx (x + a) y) with (getAtPos ctx (x + a) (y + 0))
        by (f_equal; lia)
  end.
  rewrite !Z.add_0_r. lia.
Qed.

(** ** Nested loops as one pass over [scan_order] *)

Lemma foldl_scan_order {A} (F : A -> Z -> Z -> A) (xs ys : list Z) (a : A) :
  foldl (fun c x => foldl (fun c' y => F c' x y) c ys) a xs
  = foldl (fun c p => F c p.1 p.2) a (scan_order xs ys).
Proof.
  revert a. induction xs as [| x xs IH]; intros a; [reflexivity |].
  unfold scan_order in *. rewrite bind_cons, foldl_app, foldl_fmap.
  simpl. apply IH.
Qed.

Lemma elem_of_all_positions x y : (x, y) ∈ all_positions <-> in_grid x y.
Proof.
  unfold all_positions, scan_order, in_grid. rewrite list_elem_of_bind. split.
  - intros (x' & Hy & Hx). apply list_elem_of_fmap in Hy as (y' & Heq & Hy).
    inversion Heq; subst. apply elem_of_seqZ in Hx, Hy. lia.
  - intros [Hx Hy]. exists x. split.
    + apply list_elem_of_fmap. exists y. split; [reflexivity |].
      apply elem_of_seqZ. lia.
    + apply elem_of_seqZ. lia.
Qed.

Lemma all_positions_NoDup : NoDup all_positions.
Proof.
  unfold all_positions, scan_order. apply NoDup_bind.
  - intros x1 x2 p _ _ H1 H2.
    apply list_elem_of_fmap in H1 as (y1 & -> & _).
    apply list_elem_of_fmap in H2 as (y2 & Heq & _).
    congruence.
  - intros x _. apply NoDup_fmap_2_strong; [| apply NoDup_seqZ].
    intros y1 y2 _ _ Heq. congruence.
  - apply NoDup_seqZ.
Qed.

Lemma position_inj x1 y1 x2 y2 :
  in_grid x1 y1 -> in_grid x2 y2 ->
  position x1 y1 = position x2 y2 -> x1 = x2 /\ y1 = y2.
Proof.
  unfold in_grid, position, GAME_WIDTH, GAME_HEIGHT. lia.
Qed.

Lemma all_positions_index_NoDup :
  NoDup ((fun p => cell_index p.1 p.2) <$> all_positions).
Proof.
  apply NoDup_fmap_2_strong; [| apply all_positions_NoDup].
  intros [x1 y1] [x2 y2] H1 H2 Heq. cbn [fst snd] in Heq.
  apply elem_of_all_positions in H1, H2.
  rewrite !cell_index_position in Heq by assumption.
  destruct (position_inj x1 y1 x2 y2 H1 H2 Heq) as [-> ->]. reflexivity.
Qed.

(** Every index of the array is the position of one cell of the grid. *)
Lemma position_of_index (k : nat) :
  (k < Z.to_nat GAME_CELLS)%nat ->
  exists x y, in_grid x y /\ position x y = k.
Proof.
  intros Hk. exists (Z.of_nat k mod GAME_WIDTH), (Z.of_nat k / GAME_WIDTH).
  unfold in_grid, position, GAME_CELLS, GAME_WIDTH, GAME_HEIGHT in *.
  pose proof (Z.mod_pos_bound (Z.of_nat k) 24 ltac:(lia)).
  pose proof (Z.div_mod (Z.of_nat k) 24 ltac:(lia)).
  repeat split; try lia.
Qed.

Lemma all_positions_index_seq :
  (fun p : Z * Z => cell_index p.1 p.2) <$> all_positions
  ≡ₚ seq 0 (Z.to_nat GAME_CELLS).
Proof.
  apply NoDup_Permutation.
  - apply all_positions_index_NoDup.
  - apply NoDup_seq.
  - intros k. rewrite list_elem_of_fmap, elem_of_seq. split.
    + intros ([x y] & -> & Hp). apply elem_of_all_positions in Hp.
      cbn [fst snd]. rewrite (cell_index_position x y Hp).
      pose proof (position_lt x y Hp). lia.
    + intros [_ Hk]. destruct (position_of_index k) as (x & y & Hin & <-);
        [lia |].
      exists (x, y). split.
      * cbn [fst snd]. symmetry. apply cell_index_position, Hin.
      * apply elem_of_all_positions, Hin.
Qed.

(** ** One step of the automaton *)

Lemma getAtPos_ext c1 c2 x y :
  cells c1 = cells c2 -> getAtPos c1 x y = getAtPos c2 x y.
Proof. intros H. unfold getAtPos. rewrite H. reflexivity. Qed.

Lemma neighbors_ext c1 c2 x y :
  cells c1 = cells c2 -> neighbors c1 x y = neighbors c2 x y.
Proof.
  intros H. unfold neighbors.
  rewrite !(getAtPos_ext c1 c2) by exact H. reflexivity.
Qed.

Lemma next_cell_ext c1 c2 x y :
  cells c1 = cells c2 -> next_cell c1 x y = next_cell c2 x y.
Proof.
  intros H. unfold next_cell.
  rewrite (neighbors_ext c1 c2), (getAtPos_ext c1 c2) by exact H.
  reflexivity.
Qed.

Lemma gol_step_cell_cells c x y : cells (gol_step_cell c x y) = cells c.
Proof.
  unfold gol_step_cell.
  destruct (neighbors c x y =? 2), (neighbors c x y =? 3); reflexivity.
Qed.

Lemma gol_step_cell_length c x y :
  length (newCells (gol_step_cell c x y)) = length (newCells c).
Proof.
  unfold gol_step_cell.
  destruct (neighbors c x y =? 2), (neighbors c x y =? 3); simpl;
    rewrite ?length_insert; reflexivity.
Qed.

Lemma gol_step_cell_other c x y (k : nat) :
  k <> cell_index x y ->
  newCells (gol_step_cell c x y) !! k = newCells c !! k.
Proof.
  intros Hk. unfold gol_step_cell.
  destruct (neighbors c x y =? 2), (neighbors c x y =? 3); simpl;
    rewrite ?list_lookup_insert_ne by congruence; reflexivity.
Qed.

Lemma gol_step_cell_here c x y :
  newCells c !! cell_index x y = Some 0 ->
  newCells (gol_step_cell c x y) !! cell_index x y = Some (next_cell c x y).
Proof.
  intros H0. pose proof (lookup_lt_Some _ _ _ H0) as Hlt.
  unfold gol_step_cell, next_cell.
  destruct (neighbors c x y =? 2) eqn:E2, (neighbors c x y =? 3) eqn:E3; simpl.
  - apply Z.eqb_eq in E2, E3. lia.
  - apply list_lookup_insert_eq. exact Hlt.
  - apply list_lookup_insert_eq. exact Hlt.
  - exact H0.
Qed.

(** The scan leaves [cells] as it was. *)
Lemma scan_cells ps c :
  cells (foldl (fun c p => gol_step_cell c p.1 p.2) c ps) = cells c.
Proof.
  revert c. induction ps as [| p ps IH]; intros c; simpl; [reflexivity |].
  rewrite IH. apply gol_step_cell_cells.
Qed.

Lemma scan_length ps c :
  length (newCells (foldl (fun c p => gol_step_cell c p.1 p.2) c ps))
  = length (newCells c).
Proof.
  revert c. induction ps as [| p ps IH]; intros c; simpl; [reflexivity |].
  rewrite IH. apply gol_step_cell_length.
Qed.

(** An entry that no iteration addresses keeps its value. *)
Lemma scan_other ps c (k : nat) :
  k ∉ (fun p : Z * Z => cell_index p.1 p.2) <$> ps ->
  newCells (foldl (fun c p => gol_step_cell c p.1 p.2) c ps) !! k
  = newCells c !! k.
Proof.
  revert c. induction ps as [| p ps IH]; intros c Hk; simpl; [reflexivity |].
  rewrite fmap_cons, not_elem_of_cons in Hk. destruct Hk as [Hne Hk].
  rewrite IH by exact Hk. apply gol_step_cell_other. exact Hne.
Qed.

(** An entry that exactly one iteration addresses holds the value that
    this iteration computes from [cells]. *)
Lemma scan_here ps c p :
  NoDup ((fun p : Z * Z => cell_index p.1 p.2) <$> ps) ->
  p ∈ ps ->
  newCells c !! cell_index p.1 p.2 = Some 0 ->
  newCells (foldl (fun c p => gol_step_cell c p.1 p.2) c ps)
    !! cell_index p.1 p.2
  = Some (next_cell c p.1 p.2).
Proof.
  revert c. induction ps as [| q ps IH]; intros c Hnd Hp H0; simpl.
  - inversion Hp.
  - rewrite fmap_cons, NoDup_cons in Hnd. destruct Hnd as [Hq Hnd].
    apply elem_of_cons in Hp as [-> | Hp].
    + rewrite scan_other by exact Hq. apply gol_step_cell_here. exact H0.
    + assert (Hne : cell_index p.1 p.2 <> cell_index q.1 q.2).
      { intros Heq. apply Hq. rewrite <- Heq.
        apply (list_elem_of_fmap_2 (fun p : Z * Z => cell_index p.1 p.2)).
        exact Hp. }
      rewrite IH; [| exact Hnd | exact Hp |].
      * f_equal. apply next_cell_ext, gol_step_cell_cells.
      * rewrite gol_step_cell_other by exact Hne. exact H0.
Qed.

Lemma SDL_zeroa_length : length SDL_zeroa = Z.to_nat GAME_CELLS.
Proof. apply length_replicate. Qed.

Lemma SDL_zeroa_lookup (k : nat) :
  (k < Z.to_nat GAME_CELLS)%nat -> SDL_zeroa !! k = Some 0.
Proof. intros H. apply lookup_replicate_2. exact H. Qed.

(** The copying loop: afterwards [cells] is [newCells]. *)
Lemma copy_newCells ks c :
  newCells (foldl (fun c i => set_cell c (Z.to_nat i)
                                (array_get (newCells c) (Z.to_nat i))) c ks)
  = newCells c.
Proof.
  revert c. induction ks as [| k ks IH]; intros c; simpl; [reflexivity |].
  rewrite IH. reflexivity.
Qed.

Lemma copy_lookup ks c (i : nat) :
  length (cells c) = length (newCells c) ->
  cells (foldl (fun c i => set_cell c (Z.to_nat i)
                             (array_get (newCells c) (Z.to_nat i))) c ks) !! i
  = if bool_decide (i ∈ Z.to_nat <$> ks) then newCells c !! i
    else cells c !! i.
Proof.
  revert c. induction ks as [| k ks IH]; intros c Hlen; simpl.
  - reflexivity.
  - rewrite IH by (simpl; rewrite length_insert; exact Hlen).
    simpl. case_bool_decide as Hin.
    + rewrite bool_decide_eq_true_2 by (apply elem_of_cons; auto).
      reflexivity.
    + destruct (decide (i = Z.to_nat k)) as [-> | Hne].
      * rewrite bool_decide_eq_true_2 by (apply elem_of_cons; auto).
        destruct (decide (Z.to_nat k < length (cells c))%nat) as [Hlt | Hge].
        -- rewrite list_lookup_insert_eq by exact Hlt.
           symmetry. apply array_get_lookup. lia.
        -- rewrite list_insert_ge by lia.
           rewrite !lookup_ge_None_2 by lia. reflexivity.
      * rewrite bool_decide_eq_false_2
          by (rewrite elem_of_cons; intros [? | ?]; auto).
        apply list_lookup_insert_ne. congruence.
Qed.

Lemma GolContext_eq c1 c2 :
  cells c1 = cells c2 -> newCells c1 = newCells c2 -> c1 = c2.
Proof. destruct c1, c2; simpl; intros -> ->; reflexivity. Qed.

Lemma gol_step_copy_eq c :
  wf_ctx c -> gol_step_copy c = mkGol (newCells c) (newCells c).
Proof.
  intros [Hc Hn]. unfold wf_grid in *. unfold gol_step_copy.
  apply GolContext_eq; cbn [cells newCells]; [| apply copy_newCells].
  apply list_eq. intros i.
  rewrite copy_lookup by lia. case_bool_decide as Hin; [reflexivity |].
  assert (Hge : (Z.to_nat GAME_CELLS <= i)%nat).
  { destruct (decide (i < Z.to_nat GAME_CELLS)%nat) as [Hlt |]; [| lia].
    exfalso. apply Hin. apply list_elem_of_fmap. exists (Z.of_nat i).
    split; [lia |]. apply elem_of_seqZ. lia. }
  rewrite !lookup_ge_None_2 by lia. reflexivity.
Qed.

(** [gol_step] in closed form: both arrays hold the scanned [newCells]. *)
Lemma scanned_cells_length ctx : wf_grid (scanned_cells ctx).
Proof.
  unfold wf_grid, scanned_cells. rewrite scan_length. apply SDL_zeroa_length.
Qed.

Lemma scanned_cells_lookup ctx x y :
  in_grid x y -> scanned_cells ctx !! position x y = Some (next_cell ctx x y).
Proof.
  intros Hin. unfold scanned_cells.
  rewrite <- (cell_index_position x y Hin).
  rewrite (scan_here all_positions _ (x, y)).
  - rewrite (next_cell_ext _ ctx) by reflexivity. reflexivity.
  - apply all_positions_index_NoDup.
  - apply elem_of_all_positions, Hin.
  - apply SDL_zeroa_lookup. cbn [fst snd].
    rewrite (cell_index_position x y Hin). apply position_lt, Hin.
Qed.

Lemma gol_step_scan_eq c :
  gol_step_scan c = foldl (fun c p => gol_step_cell c p.1 p.2) c all_positions.
Proof. unfold gol_step_scan, all_positions. apply foldl_scan_order. Qed.

Lemma gol_step_eq ctx :
  wf_ctx ctx -> gol_step ctx = mkGol (scanned_cells ctx) (scanned_cells ctx).
Proof.
  intros [Hc Hn]. unfold gol_step, scanned_cells.
  rewrite gol_step_scan_eq, gol_step_copy_eq; [reflexivity |].
  split; unfold wf_grid.
  - rewrite scan_cells. exact Hc.
  - rewrite scan_length. apply SDL_zeroa_length.
Qed.

Lemma gol_step_wf ctx : wf_ctx ctx -> wf_ctx (gol_step ctx).
Proof.
  intros Hwf. rewrite gol_step_eq by exact Hwf.
  split; apply scanned_cells_length.
Qed.

Lemma gol_step_lookup ctx x y :
  wf_ctx ctx -> in_grid x y ->
  cells (gol_step ctx) !! position x y = Some (next_cell ctx x y).
Proof.
  intros Hwf Hin. rewrite gol_step_eq by exact Hwf.
  apply scanned_cells_lookup. exact Hin.
Qed.

(** ** The rule of Life on a binary grid *)

Lemma to_uchar_binary c : binary_cell c -> to_uchar c = c.
Proof. intros [-> | ->]; reflexivity. Qed.

Lemma array_get_binary g (i : nat) :
  binary_grid g -> binary_cell (array_get g i).
Proof.
  intros Hb. unfold array_get. destruct (g !! i) as [v |] eqn:E; simpl.
  - exact (Forall_lookup_1 _ _ _ _ Hb E).
  - left. reflexivity.
Qed.

Lemma cell_at_binary g x y : binary_grid g -> binary_cell (cell_at g x y).
Proof.
  intros Hb. unfold cell_at. case_bool_decide.
  - apply array_get_binary, Hb.
  - left. reflexivity.
Qed.

Lemma getAtPos_binary ctx x y :
  binary_grid (cells ctx) -> binary_cell (getAtPos ctx x y).
Proof.
  intros Hb. unfold getAtPos.
  destruct (_ || _); [left; reflexivity | apply array_get_binary, Hb].
Qed.

(** A sum of zeros and ones counts the ones. *)
Lemma sumZ_count {A} (f : A -> Z) (l : list A) :
  (forall d, d ∈ l -> binary_cell (f d)) ->
  sumZ (f <$> l) = Z.of_nat (length (filter (fun d => f d = Alive) l)).
Proof.
  induction l as [| d l IH]; intros Hb; [reflexivity |].
  rewrite fmap_cons, filter_cons. cbn [sumZ foldr]. fold (sumZ (f <$> l)).
  rewrite IH by (intros d' Hd'; apply Hb; right; exact Hd').
  destruct (Hb d) as [H0 | H1]; [left |..].
  - rewrite decide_False by (rewrite H0; discriminate). rewrite H0.
    unfold Dead. lia.
  - rewrite decide_True by exact H1. rewrite H1. unfold Alive.
    cbn [length]. lia.
Qed.

Lemma neighbors_live ctx x y :
  in_grid x y -> binary_grid (cells ctx) ->
  neighbors ctx x y = live_neighbours (cells ctx) x y.
Proof.
  intros Hin Hb. rewrite neighbors_sum by exact Hin.
  unfold live_neighbours. apply sumZ_count.
  intros d _. apply cell_at_binary, Hb.
Qed.

Lemma neighbors_range ctx x y :
  binary_grid (cells ctx) -> 0 <= neighbors ctx x y <= 8.
Proof.
  intros Hb. unfold neighbors.
  repeat match goal with
  | |- context [getAtPos ctx ?a ?b] =>
      let H := fresh in
      destruct (getAtPos_binary ctx a b Hb) as [H | H];
      rewrite H; clear H
  end; unfold Dead, Alive; lia.
Qed.

Lemma next_cell_life_rule ctx x y :
  in_grid x y -> binary_grid (cells ctx) ->
  next_cell ctx x y
  = life_rule (cell_at (cells ctx) x y) (live_neighbours (cells ctx) x y).
Proof.
  intros Hin Hb. unfold next_cell, life_rule.
  rewrite <- (neighbors_live ctx x y Hin Hb).
  rewrite (getAtPos_inside ctx x y Hin).
  unfold cell_at. rewrite (bool_decide_eq_true_2 (in_grid x y)) by exact Hin.
  pose proof (array_get_binary (cells ctx) (position x y) Hb) as Hc.
  rewrite (to_uchar_binary _ Hc).
  destruct (neighbors ctx x y =? 3) eqn:E3.
  - apply Z.eqb_eq in E3. rewrite E3.
    repeat case_bool_decide; first [reflexivity | lia].
  - apply Z.eqb_neq in E3.
    destruct (neighbors ctx x y =? 2) eqn:E2.
    + apply Z.eqb_eq in E2. rewrite E2.
      destruct Hc as [-> | ->]; reflexivity.
    + apply Z.eqb_neq in E2.
      repeat case_bool_decide; first [reflexivity | lia].
Qed.

Lemma next_cell_binary ctx x y :
  binary_grid (cells ctx) -> binary_cell (next_cell ctx x y).
Proof.
  intros Hb. unfold next_cell.
  destruct (_ =? 3); [right; reflexivity |].
  destruct (_ =? 2); [| left; reflexivity].
  rewrite to_uchar_binary; apply getAtPos_binary, Hb.
Qed.

Lemma gol_step_binary ctx :
  wf_ctx ctx -> binary_grid (cells ctx) -> binary_grid (cells (gol_step ctx)).
Proof.
  intros Hwf Hb. apply Forall_lookup. intros k c Hk.
  pose proof (lookup_lt_Some _ _ _ Hk) as Hlt.
  destruct (gol_step_wf ctx Hwf) as [Hlen _]. unfold wf_grid in Hlen.
  destruct (position_of_index k) as (x & y & Hin & <-); [lia |].
  rewrite (gol_step_lookup ctx x y Hwf Hin) in Hk.
  injection Hk as <-. apply next_cell_binary, Hb.
Qed.

(** ** Initialisation *)

Lemma remove_dups_length_le {A} `{EqDecision A} (l : list A) :
  (length (remove_dups l) <= length l)%nat.
Proof.
  induction l as [| x l IH]; simpl; [lia |].
  case_decide; simpl; lia.
Qed.

Lemma remove_dups_length_eq {A} `{EqDecision A} (l : list A) :
  length (remove_dups l) = length l <-> NoDup l.
Proof.
  induction l as [| x l IH]; simpl.
  - split; [intros _; constructor | reflexivity].
  - pose proof (remove_dups_length_le l) as Hle.
    rewrite NoDup_cons.
    case_decide as Hin; simpl.
    + split; [lia | tauto].
    + split.
      * intros Heq. split; [exact Hin | apply IH; lia].
      * intros [_ Hnd]. apply IH in Hnd. lia.
Qed.

Lemma mark_alive_length ds g : length (mark_alive ds g) = length g.
Proof.
  revert g. induction ds as [| d ds IH]; intros g; [reflexivity |].
  unfold mark_alive in *. simpl. rewrite IH. apply length_insert.
Qed.

Lemma mark_alive_lookup ds g (i : nat) :
  (i < length g)%nat ->
  mark_alive ds g !! i
  = if bool_decide (i ∈ Z.to_nat <$> ds) then Some Alive else g !! i.
Proof.
  revert g. induction ds as [| d ds IH]; intros g Hi; [reflexivity |].
  unfold mark_alive in *. cbn [foldl]. rewrite IH by (rewrite length_insert; lia).
  rewrite fmap_cons. case_bool_decide as Hin.
  - rewrite bool_decide_eq_true_2 by (right; exact Hin). reflexivity.
  - destruct (decide (i = Z.to_nat d)) as [-> | Hne].
    + rewrite bool_decide_eq_true_2 by left.
      apply list_lookup_insert_eq. exact Hi.
    + rewrite bool_decide_eq_false_2
        by (rewrite elem_of_cons; intros [? | ?]; auto).
      apply list_lookup_insert_ne. congruence.
Qed.

(** The grid that is live exactly on the positions [ps]. *)
Lemma mark_alive_zero ds :
  mark_alive ds SDL_zeroa
  = (fun i : nat => if bool_decide (i ∈ Z.to_nat <$> ds) then Alive else Dead)
      <$> seq 0 (Z.to_nat GAME_CELLS).
Proof.
  apply list_eq. intros i. rewrite list_lookup_fmap.
  destruct (decide (i < Z.to_nat GAME_CELLS)%nat) as [Hlt | Hge].
  - rewrite mark_alive_lookup by (rewrite SDL_zeroa_length; exact Hlt).
    rewrite SDL_zeroa_lookup by exact Hlt.
    rewrite lookup_seq_lt by exact Hlt. simpl.
    case_bool_decide; reflexivity.
  - rewrite lookup_ge_None_2
      by (rewrite mark_alive_length, SDL_zeroa_length; lia).
    rewrite lookup_seq_ge by lia. reflexivity.
Qed.

Lemma count_alive_indicator (P : nat -> Prop) `{forall i, Decision (P i)}
    (l : list nat) :
  count_alive ((fun i => if bool_decide (P i) then Alive else Dead) <$> l)
  = length (filter P l).
Proof.
  unfold count_alive. induction l as [| i l IH]; [reflexivity |].
  rewrite fmap_cons, !filter_cons.
  case_bool_decide as HP.
  - rewrite decide_True by reflexivity. rewrite decide_True by exact HP.
    cbn [length]. rewrite IH. reflexivity.
  - rewrite decide_False by discriminate. rewrite decide_False by exact HP.
    exact IH.
Qed.

Lemma count_alive_mark ds :
  Forall (fun d => 0 <= d < GAME_CELLS) ds ->
  count_alive (mark_alive ds SDL_zeroa) = length (remove_dups ds).
Proof.
  intros Hr. rewrite mark_alive_zero, count_alive_indicator.
  transitivity (length (remove_dups (Z.to_nat <$> ds))).
  - apply Permutation_length, NoDup_Permutation.
    + apply NoDup_filter, NoDup_seq.
    + apply NoDup_remove_dups.
    + intros i. rewrite list_elem_of_filter, elem_of_remove_dups, elem_of_seq.
      split; [tauto |]. intros Hi. split; [exact Hi |].
      apply list_elem_of_fmap in Hi as (d & -> & Hd).
      rewrite Forall_forall in Hr. specialize (Hr d Hd). lia.
  - clear -Hr. induction Hr as [| d ds Hd Hr IH]; [reflexivity |].
    rewrite fmap_cons. cbn [remove_dups].
    assert (Hiff : Z.to_nat d ∈ Z.to_nat <$> ds <-> d ∈ ds).
    { split.
      - intros Hin. apply list_elem_of_fmap in Hin as (d' & Heq & Hd').
        rewrite Forall_forall in Hr. specialize (Hr d' Hd').
        assert (d = d') as -> by lia. exact Hd'.
      - intros Hin. apply list_elem_of_fmap. exists d. auto. }
    repeat case_decide; try tauto; cbn [length]; rewrite IH; reflexivity.
Qed.

Section InitialiseProofs.

Context {RngState : Type} (SDL_rand : Z -> RngState -> Z * RngState).

Lemma rand_draws_length k n g : length (rand_draws SDL_rand k n g) = k.
Proof.
  revert g. induction k as [| k IH]; intros g; simpl; [| rewrite IH]; reflexivity.
Qed.

Lemma rand_draws_range k n g :
  SDL_rand_range SDL_rand -> 0 < n ->
  Forall (fun d => 0 <= d < n) (rand_draws SDL_rand k n g).
Proof.
  intros Hr Hn. revert g. induction k as [| k IH]; intros g; simpl.
  - constructor.
  - constructor; [apply Hr, Hn | apply IH].
Qed.

(** The loop of [gol_initialize], whatever the loop counter runs over. *)
Lemma gol_initialize_loop (js : list Z) c g :
  foldl (fun st (_ : Z) => gol_initialize_draw SDL_rand st) (c, g) js
  = (mkGol (mark_alive (rand_draws SDL_rand (length js) GAME_CELLS g)
                       (cells c))
           (newCells c),
     rand_after SDL_rand (length js) GAME_CELLS g).
Proof.
  revert c g. induction js as [| j js IH]; intros c g.
  - destruct c; reflexivity.
  - cbn [foldl length rand_draws rand_after].
    unfold gol_initialize_draw at 2. cbn [fst snd].
    destruct (SDL_rand GAME_CELLS g) as [n g'] eqn:E.
    rewrite IH. reflexivity.
Qed.

Lemma gol_initialize_eq ctx g :
  gol_initialize SDL_rand ctx g
  = (mkGol (mark_alive (rand_draws SDL_rand (Z.to_nat (GAME_CELLS / 2))
                                   GAME_CELLS g) SDL_zeroa)
           (newCells ctx),
     rand_after SDL_rand (Z.to_nat (GAME_CELLS / 2)) GAME_CELLS g).
Proof.
  unfold gol_initialize. rewrite gol_initialize_loop, length_seqZ.
  reflexivity.
Qed.

Lemma gol_initialize_wf ctx g :
  wf_ctx ctx -> wf_ctx (gol_initialize SDL_rand ctx g).1.
Proof.
  intros [_ Hn]. rewrite gol_initialize_eq. split; [| exact Hn].
  unfold wf_grid. cbn [fst cells].
  rewrite mark_alive_length. apply SDL_zeroa_length.
Qed.

Lemma gol_initialize_binary ctx g :
  binary_grid (cells (gol_initialize SDL_rand ctx g).1).
Proof.
  rewrite gol_initialize_eq. cbn [fst cells]. rewrite mark_alive_zero.
  apply Forall_fmap, Forall_forall. intros i _. unfold compose.
  case_bool_decide; [right | left]; reflexivity.
Qed.

End InitialiseProofs.

(** ** The catch-up loop *)

Lemma catch_up_once_last_step st :
  last_step (catch_up_once st)
  = to_Uint64 (last_step st + STEP_RATE_IN_MILLISECONDS).
Proof. reflexivity. Qed.

Lemma iter_catch_up_once_ctx (k : nat) st :
  gol_ctx (Nat.iter k catch_up_once st) = Nat.iter k gol_step (gol_ctx st).
Proof.
  induction k as [| k IH]; [reflexivity |].
  rewrite !Nat.iter_succ. unfold catch_up_once at 1. cbn [gol_ctx].
  rewrite IH. reflexivity.
Qed.

Lemma iter_catch_up_once_frame (k : nat) st :
  window (Nat.iter k catch_up_once st) = window st
  /\ renderer (Nat.iter k catch_up_once st) = renderer st.
Proof.
  induction k as [| k IH]; [split; reflexivity |].
  rewrite !Nat.iter_succ. unfold catch_up_once at 1 3.
  cbn [window renderer]. exact IH.
Qed.

(** In [Uint64] the clock has advanced by [k] whole periods. *)
Lemma iter_catch_up_once_last_step (k : nat) st :
  is_Uint64 (last_step st) ->
  last_step (Nat.iter k catch_up_once st)
  = to_Uint64 (last_step st + Z.of_nat k * STEP_RATE_IN_MILLISECONDS).
Proof.
  intros Hr. induction k as [| k IH].
  - cbn [Nat.iter nat_rect]. unfold to_Uint64, is_Uint64 in *.
    rewrite Z.mod_small; [f_equal; lia | lia].
  - rewrite Nat.iter_succ, catch_up_once_last_step, IH.
    unfold to_Uint64. rewrite Zplus_mod_idemp_l. f_equal. lia.
Qed.

(** The loop runs as many times as whole periods fit in the [Uint64]
    difference [now - last_step], whatever the two values are. *)
Lemma catch_up_steps (k fuel : nat) now st :
  STEP_RATE_IN_MILLISECONDS * Z.of_nat k
    <= to_Uint64 (now - last_step st)
    < STEP_RATE_IN_MILLISECONDS * (Z.of_nat k + 1) ->
  (k <= fuel)%nat ->
  catch_up fuel now st = Some (k, Nat.iter k catch_up_once st).
Proof.
  revert fuel st. induction k as [| k IH]; intros fuel st Hd Hf.
  - assert (E : (STEP_RATE_IN_MILLISECONDS <=? to_Uint64 (now - last_step st))
                = false)
      by (apply Z.leb_gt; unfold STEP_RATE_IN_MILLISECONDS in *; lia).
    destruct fuel; cbn [catch_up]; rewrite E; reflexivity.
  - destruct fuel as [| fuel]; [lia |].
    assert (E : (STEP_RATE_IN_MILLISECONDS <=? to_Uint64 (now - last_step st))
                = true)
      by (apply Z.leb_le; unfold STEP_RATE_IN_MILLISECONDS in *; lia).
    cbn [catch_up]. rewrite E. rewrite (IH fuel (catch_up_once st)).
    + rewrite <- Nat.iter_succ_r. reflexivity.
    + rewrite catch_up_once_last_step. unfold to_Uint64 in *.
      rewrite Zminus_mod_idemp_r.
      replace (now - (last_step st + STEP_RATE_IN_MILLISECONDS))
        with (now - last_step st - STEP_RATE_IN_MILLISECONDS) by lia.
      rewrite <- Zminus_mod_idemp_l.
      pose proof (Z.mod_pos_bound (now - last_step st) (2 ^ 64) ltac:(lia)).
      unfold STEP_RATE_IN_MILLISECONDS in *.
      rewrite Z.mod_small; lia.
    + lia.
Qed.

(** The number of iterations of the loop at [now] from state [st]. *)
Lemma catch_up_total (fuel : nat) now st :
  (Z.to_nat (to_Uint64 (now - last_step st) / STEP_RATE_IN_MILLISECONDS)
   <= fuel)%nat ->
  catch_up fuel now st
  = Some (Z.to_nat (to_Uint64 (now - last_step st)
                    / STEP_RATE_IN_MILLISECONDS),
          Nat.iter (Z.to_nat (to_Uint64 (now - last_step st)
                              / STEP_RATE_IN_MILLISECONDS))
                   catch_up_once st).
Proof.
  intros Hf. apply catch_up_steps; [| exact Hf].
  unfold to_Uint64, STEP_RATE_IN_MILLISECONDS in *.
  pose proof (Z.mod_pos_bound (now - last_step st) (2 ^ 64) ltac:(lia)) as Hb.
  set (d := (now - last_step st) mod 2 ^ 64) in *.
  pose proof (Z.div_mod d 250 ltac:(lia)).
  pose proof (Z.mod_pos_bound d 250 ltac:(lia)).
  assert (0 <= d / 250) by (apply Z.div_pos; lia).
  rewrite Z2Nat.id by lia. lia.
Qed.

Lemma catch_up_mono (fuel fuel' : nat) now st r :
  catch_up fuel now st = Some r -> (fuel <= fuel')%nat ->
  catch_up fuel' now st = Some r.
Proof.
  revert fuel' st r. induction fuel as [| fuel IH]; intros fuel' st r Hc Hle.
  - cbn [catch_up] in Hc.
    destruct (STEP_RATE_IN_MILLISECONDS <=? _) eqn:E; [discriminate |].
    destruct fuel'; cbn [catch_up]; rewrite E; exact Hc.
  - destruct fuel' as [| fuel']; [lia |].
    cbn [catch_up] in *.
    destruct (STEP_RATE_IN_MILLISECONDS <=? _); [| exact Hc].
    destruct (catch_up fuel now (catch_up_once st)) as [[k s] |] eqn:E;
      [| discriminate].
    rewrite (IH fuel' _ _ E) by lia. exact Hc.
Qed.

(** Whatever fuel lets the loop finish, the result is the same. *)
Lemma catch_up_inv (fuel : nat) now st k st' :
  catch_up fuel now st = Some (k, st') ->
  k = Z.to_nat (to_Uint64 (now - last_step st) / STEP_RATE_IN_MILLISECONDS)
  /\ st' = Nat.iter k catch_up_once st.
Proof.
  intros Hc.
  set (n := Z.to_nat (to_Uint64 (now - last_step st)
                      / STEP_RATE_IN_MILLISECONDS)).
  pose proof (catch_up_mono fuel (Nat.max fuel n) now st _ Hc
                (Nat.le_max_l _ _)) as H1.
  pose proof (catch_up_total (Nat.max fuel n) now st (Nat.le_max_r _ _)) as H2.
  fold n in H2. rewrite H1 in H2. injection H2 as -> ->.
  split; reflexivity.
Qed.

(** With the clock not behind the state, nothing wraps around. *)
Lemma catch_up_exact now st :
  is_Uint64 now -> 0 <= last_step st <= now ->
  let k := Z.to_nat ((now - last_step st) / STEP_RATE_IN_MILLISECONDS) in
  to_Uint64 (now - last_step st) = now - last_step st
  /\ last_step (Nat.iter k catch_up_once st)
     = last_step st + Z.of_nat k * STEP_RATE_IN_MILLISECONDS
  /\ 0 <= now - last_step (Nat.iter k catch_up_once st)
       < STEP_RATE_IN_MILLISECONDS.
Proof.
  intros Hn Hl k. unfold is_Uint64 in *.
  assert (Hk : Z.of_nat k * STEP_RATE_IN_MILLISECONDS <= now - last_step st
               < Z.of_nat k * STEP_RATE_IN_MILLISECONDS
                 + STEP_RATE_IN_MILLISECONDS).
  { subst k. unfold STEP_RATE_IN_MILLISECONDS.
    pose proof (Z.div_mod (now - last_step st) 250 ltac:(lia)).
    pose proof (Z.mod_pos_bound (now - last_step st) 250 ltac:(lia)).
    assert (0 <= (now - last_step st) / 250) by (apply Z.div_pos; lia).
    rewrite Z2Nat.id by lia. lia. }
  assert (Hd : to_Uint64 (now - last_step st) = now - last_step st)
    by (apply Z.mod_small; lia).
  split; [exact Hd |].
  rewrite iter_catch_up_once_last_step by (unfold is_Uint64; lia).
  unfold to_Uint64, STEP_RATE_IN_MILLISECONDS in *.
  rewrite Z.mod_small by lia. lia.
Qed.

(** ** Frames *)

Lemma SDL_AppIterate_total (fuel : nat) now st :
  (Z.to_nat (to_Uint64 (now - last_step st) / STEP_RATE_IN_MILLISECONDS)
   <= fuel)%nat ->
  exists out,
    SDL_AppIterate fuel now st = Some out
    /\ frame_result out = SDL_APP_CONTINUE
    /\ frame_steps out
       = Z.to_nat (to_Uint64 (now - last_step st) / STEP_RATE_IN_MILLISECONDS)
    /\ last_step (frame_state out)
       = last_step (Nat.iter (frame_steps out) catch_up_once st)
    /\ gol_ctx (frame_state out)
       = Nat.iter (frame_steps out) gol_step (gol_ctx st)
    /\ renderer (frame_state out)
       = draw_frame (gol_ctx (frame_state out)) (renderer st).
Proof.
  intros Hf. unfold SDL_AppIterate. rewrite (catch_up_total fuel now st Hf).
  eexists. split; [reflexivity |]. cbn [frame_result frame_steps frame_state
                                         last_step gol_ctx renderer].
  rewrite iter_catch_up_once_ctx.
  destruct (iter_catch_up_once_frame
              (Z.to_nat (to_Uint64 (now - last_step st)
                         / STEP_RATE_IN_MILLISECONDS)) st) as [_ ->].
  repeat split; reflexivity.
Qed.

Lemma SDL_AppIterate_inv (fuel : nat) now st out :
  SDL_AppIterate fuel now st = Some out ->
  frame_steps out
  = Z.to_nat (to_Uint64 (now - last_step st) / STEP_RATE_IN_MILLISECONDS)
  /\ last_step (frame_state out)
     = last_step (Nat.iter (frame_steps out) catch_up_once st).
Proof.
  unfold SDL_AppIterate. intros H.
  destruct (catch_up fuel now st) as [[k st'] |] eqn:E; [| discriminate].
  injection H as <-. cbn [frame_steps frame_state last_step].
  destruct (catch_up_inv fuel now st k st' E) as [Hk ->].
  split; [exact Hk | reflexivity].
Qed.

Lemma max_catch_up_enough now st :
  (Z.to_nat (to_Uint64 (now - last_step st) / STEP_RATE_IN_MILLISECONDS)
   <= max_catch_up)%nat.
Proof.
  unfold max_catch_up, to_Uint64, STEP_RATE_IN_MILLISECONDS.
  pose proof (Z.mod_pos_bound (now - last_step st) (2 ^ 64) ltac:(lia)).
  apply Z2Nat.inj_le.
  - apply Z.div_pos; lia.
  - apply Z.div_pos; lia.
  - apply Z.div_le_mono; lia.
Qed.

(** Every sequence of frames runs to its end. *)
Lemma run_frames_total nows st :
  exists st', run_frames max_catch_up nows st = Some st'.
Proof.
  revert st. induction nows as [| now nows IH]; intros st.
  - exists st. reflexivity.
  - destruct (SDL_AppIterate_total max_catch_up now st
                (max_catch_up_enough now st)) as (out & Hout & _).
    cbn [run_frames]. rewrite Hout. apply IH.
Qed.

(** In [Uint64], the clock only ever moves by whole periods. *)
Lemma run_frames_last_step_mod (fuel : nat) nows st st' :
  is_Uint64 (last_step st) ->
  run_frames fuel nows st = Some st' ->
  exists k : nat,
    last_step st'
    = to_Uint64 (last_step st + Z.of_nat k * STEP_RATE_IN_MILLISECONDS).
Proof.
  revert st. induction nows as [| now nows IH]; intros st Hr Hrun.
  - injection Hrun as <-. exists 0%nat. unfold to_Uint64, is_Uint64 in *.
    rewrite Z.mod_small; lia.
  - cbn [run_frames] in Hrun.
    destruct (SDL_AppIterate fuel now st) as [out |] eqn:E; [| discriminate].
    destruct (SDL_AppIterate_inv fuel now st out E) as [_ Hl].
    rewrite iter_catch_up_once_last_step in Hl by exact Hr.
    destruct (IH (frame_state out)) as [k Hk]; [| exact Hrun |].
    + rewrite Hl. unfold to_Uint64, is_Uint64.
      apply Z.mod_pos_bound. lia.
    + exists (frame_steps out + k)%nat. rewrite Hk, Hl.
      unfold to_Uint64. rewrite Zplus_mod_idemp_l. f_equal. lia.
Qed.

(** With a clock that never runs backwards nothing wraps around, and the
    state never gets ahead of the clock. *)
Lemma run_frames_last_step (fuel : nat) nows t st st' :
  Sorted Z.le (t :: nows) -> Forall is_Uint64 nows ->
  0 <= last_step st <= t ->
  run_frames fuel nows st = Some st' ->
  exists k : nat,
    last_step st' = last_step st + Z.of_nat k * STEP_RATE_IN_MILLISECONDS.
Proof.
  revert t st. induction nows as [| now nows IH]; intros t st Hs Hu Hl Hrun.
  - injection Hrun as <-. exists 0%nat. lia.
  - cbn [run_frames] in Hrun.
    destruct (SDL_AppIterate fuel now st) as [out |] eqn:E; [| discriminate].
    apply Sorted_inv in Hs as [Hs Hhd]. apply HdRel_inv in Hhd.
    apply Forall_cons in Hu as [Hnow Hu].
    destruct (SDL_AppIterate_inv fuel now st out E) as [Hk Hlast].
    destruct (catch_up_exact now st Hnow ltac:(lia)) as (Hd & Hex & Hrem).
    rewrite Hd in Hk. rewrite <- Hk in Hex, Hrem. rewrite <- Hlast in Hex, Hrem.
    destruct (IH now (frame_state out) Hs Hu) as [k Hk']; [| exact Hrun |].
    + rewrite Hex in *. unfold STEP_RATE_IN_MILLISECONDS in *. lia.
    + exists (frame_steps out + k)%nat. rewrite Hk', Hex. lia.
Qed.

(** ** Drawing *)

Lemma to_short_small z : - 2 ^ 15 <= z < 2 ^ 15 -> to_short z = z.
Proof. intros H. unfold to_short. rewrite Z.mod_small; lia. Qed.

Lemma set_rect_xy_square r p :
  in_grid p.1 p.2 ->
  rect_w r = Some (BLOCK_SIZE_IN_PIXELS - 1) ->
  rect_h r = Some (BLOCK_SIZE_IN_PIXELS - 1) ->
  set_rect_xy_ r p.1 p.2 = cell_square p.
Proof.
  intros [Hx Hy] Hw Hh. unfold set_rect_xy_, cell_square.
  unfold GAME_WIDTH, GAME_HEIGHT in *.
  rewrite !to_short_small by lia. rewrite Hw, Hh. reflexivity.
Qed.

Lemma draw_cells_eq ctx st :
  draw_cells ctx st
  = foldl (fun s p => draw_cell ctx s p.1 p.2) st all_positions.
Proof. unfold draw_cells, all_positions. apply foldl_scan_order. Qed.

(** The drawing loops append one fill per non-zero cell, in the colour
    that is current, and leave in [r] the last square filled. *)
Lemma draw_fold ctx ps rd r :
  Forall (fun p => in_grid p.1 p.2) ps ->
  rect_w r = Some (BLOCK_SIZE_IN_PIXELS - 1) ->
  rect_h r = Some (BLOCK_SIZE_IN_PIXELS - 1) ->
  foldl (fun s p => draw_cell ctx s p.1 p.2) (rd, r) ps
  = (mkRenderer (draw_color rd)
       (ops rd ++
        ((fun p => OpFillRect (cell_square p) (draw_color rd))
           <$> filter (fun p => array_get (cells ctx) (cell_index p.1 p.2) <> 0)
                      ps)),
     default r
       (cell_square
          <$> last (filter (fun p => array_get (cells ctx)
                                       (cell_index p.1 p.2) <> 0) ps))).
Proof.
  intros Hps. revert rd r.
  induction Hps as [| p ps Hp Hps IH]; intros rd r Hw Hh.
  - cbn [foldl]. rewrite filter_nil. cbn [fmap list_fmap last default].
    rewrite app_nil_r. destruct rd; reflexivity.
  - cbn [foldl]. rewrite filter_cons. unfold draw_cell at 2. cbn [fst snd].
    destruct (array_get (cells ctx) (cell_index p.1 p.2) =? 0) eqn:E.
    + apply Z.eqb_eq in E. rewrite decide_False by (intros H; apply H, E).
      apply IH; assumption.
    + apply Z.eqb_neq in E. rewrite decide_True by exact E.
      rewrite (set_rect_xy_square r p Hp Hw Hh).
      rewrite IH by reflexivity.
      unfold SDL_RenderFillRect. cbn [draw_color ops].
      rewrite fmap_cons, <- app_assoc. cbn [app]. f_equal.
      rewrite last_cons. destruct (last _); reflexivity.
Qed.

Lemma all_positions_in_grid : Forall (fun p => in_grid p.1 p.2) all_positions.
Proof.
  apply Forall_forall. intros [x y] Hp. apply elem_of_all_positions, Hp.
Qed.

(** What one frame adds to the operations of the renderer. *)
Lemma draw_frame_ops ctx rd :
  ops (draw_frame ctx rd)
  = ops rd
    ++ OpClear background
    :: ((fun p => OpFillRect (cell_square p) foreground)
          <$> drawn_positions ctx)
    ++ [OpFillRect (last_rect ctx) foreground; OpPresent].
Proof.
  unfold draw_frame. rewrite draw_cells_eq.
  rewrite (draw_fold ctx all_positions _ _ all_positions_in_grid)
    by reflexivity.
  unfold SDL_RenderPresent, SDL_RenderFillRect, SDL_RenderClear,
    SDL_SetRenderDrawColor. cbn [ops draw_color].
  fold (drawn_positions ctx).
  rewrite <- !app_assoc. reflexivity.
Qed.

Lemma filter_fmap_length {A B} (f : A -> B) (P : A -> Prop) (Q : B -> Prop)
    `{forall a, Decision (P a)} `{forall b, Decision (Q b)} (l : list A) :
  (forall a, P a <-> Q (f a)) ->
  length (filter P l) = length (filter Q (f <$> l)).
Proof.
  intros HPQ. induction l as [| a l IH]; [reflexivity |].
  rewrite fmap_cons, !filter_cons.
  destruct (decide (P a)) as [HP | HP], (decide (Q (f a))) as [HQ | HQ];
    try (apply HPQ in HP; tauto); try (apply HPQ in HQ; tauto);
    cbn [length]; rewrite IH; reflexivity.
Qed.

Lemma array_as_fmap (g : list Z) : g = array_get g <$> seq 0 (length g).
Proof.
  apply list_eq. intros i. rewrite list_lookup_fmap.
  destruct (decide (i < length g)%nat) as [Hlt | Hge].
  - rewrite lookup_seq_lt by exact Hlt. simpl.
    apply array_get_lookup, Hlt.
  - rewrite lookup_seq_ge by lia. apply lookup_ge_None_2. lia.
Qed.

Lemma drawn_positions_length ctx :
  wf_grid (cells ctx) ->
  length (drawn_positions ctx) = count_nonzero (cells ctx).
Proof.
  intros Hwf. unfold drawn_positions, count_nonzero, wf_grid in *.
  transitivity
    (length (filter (fun i => array_get (cells ctx) i <> 0)
                    ((fun p : Z * Z => cell_index p.1 p.2) <$> all_positions))).
  { apply filter_fmap_length. intros p. reflexivity. }
  rewrite all_positions_index_seq, <- Hwf.
  symmetry. rewrite (array_as_fmap (cells ctx)) at 1.
  symmetry. apply filter_fmap_length. intros i. reflexivity.
Qed.

Lemma count_nonzero_binary g :
  binary_grid g -> count_nonzero g = count_alive g.
Proof.
  unfold count_nonzero, count_alive.
  induction 1 as [| c g Hc Hg IH]; [reflexivity |].
  rewrite !filter_cons.
  destruct Hc as [-> | ->].
  - rewrite decide_False by (intros H; apply H; reflexivity).
    rewrite decide_False by discriminate. exact IH.
  - rewrite decide_True by discriminate.
    rewrite decide_True by reflexivity. cbn [length]. rewrite IH. reflexivity.
Qed.

(** One frame issues one fill more than there are cells to draw. *)
Lemma draw_frame_fill_count ctx rd :
  wf_grid (cells ctx) ->
  length (filter is_fill (ops (draw_frame ctx rd)))
  = (length (filter is_fill (ops rd)) + count_nonzero (cells ctx) + 1)%nat.
Proof.
  intros Hwf. rewrite draw_frame_ops, <- (drawn_positions_length ctx Hwf).
  rewrite filter_app, length_app, filter_cons. cbn [is_fill].
  rewrite decide_False by tauto.
  rewrite filter_app, length_app.
  assert (Hall : forall ps : list (Z * Z),
             filter is_fill ((fun p => OpFillRect (cell_square p) foreground)
                               <$> ps)
             = (fun p => OpFillRect (cell_square p) foreground) <$> ps).
  { induction ps as [| p ps IH]; [reflexivity |].
    rewrite fmap_cons, filter_cons, decide_True by exact I.
    rewrite IH. reflexivity. }
  rewrite Hall, length_fmap.
  rewrite !filter_cons, filter_nil. cbn [is_fill].
  rewrite decide_True by exact I. rewrite decide_False by tauto.
  cbn [length]. lia.
Qed.

Lemma draw_frame_fill_count_binary ctx rd :
  wf_grid (cells ctx) -> binary_grid (cells ctx) ->
  length (filter is_fill (ops (draw_frame ctx rd)))
  = (length (filter is_fill (ops rd)) + count_alive (cells ctx) + 1)%nat.
Proof.
  intros Hwf Hb. rewrite (draw_frame_fill_count ctx rd Hwf).
  rewrite (count_nonzero_binary _ Hb). reflexivity.
Qed.

(** ** The example generator answers in range *)

Lemma lcg_rand_range : SDL_rand_range lcg_rand.
Proof.
  intros n g Hn. unfold lcg_rand, to_Uint64. cbn [fst].
  pose proof (Z.mod_pos_bound (g * 4280078389 + 5) (2 ^ 64) ltac:(lia)) as Hg.
  set (s := (g * 4280078389 + 5) mod 2 ^ 64) in *.
  rewrite !Z.shiftr_div_pow2 by lia.
  assert (Hb : 0 <= s / 2 ^ 32 < 2 ^ 32).
  { split; [apply Z.div_pos; lia |].
    apply Z.div_lt_upper_bound; lia. }
  split.
  - apply Z.div_pos; [nia | lia].
  - apply Z.div_lt_upper_bound; [lia | nia].
Qed.

(** * The claims *)

(** C1.  On every grid whose cells are all [Alive] or [Dead], [gol_step]
    leaves in each cell what the rule of Life gives for the cell and its
    number of live neighbours, both taken in the grid as it was before
    the step: a live cell with two or three live neighbours stays alive
    and dies otherwise, a dead cell with exactly three becomes alive and
    stays dead otherwise. *)
Theorem gol_step_life_rule ctx x y :
  wf_ctx ctx -> binary_grid (cells ctx) -> in_grid x y ->
  wf_ctx (gol_step ctx)
  /\ cells (gol_step ctx) !! position x y
     = Some (life_rule (cell_at (cells ctx) x y)
                       (live_neighbours (cells ctx) x y)).
Proof.
  intros Hwf Hb Hin. split; [apply gol_step_wf, Hwf |].
  rewrite (gol_step_lookup ctx x y Hwf Hin).
  f_equal. apply next_cell_life_rule; assumption.
Qed.

Lemma gol_step_life_rule_witness :
  wf_ctx blinker_v /\ binary_grid (cells blinker_v) /\ in_grid 0 1
  /\ wf_ctx (gol_step blinker_v)
  /\ cells (gol_step blinker_v) !! position 0 1
     = Some (life_rule (cell_at (cells blinker_v) 0 1)
                       (live_neighbours (cells blinker_v) 0 1)).
Proof.
  assert (Hwf : wf_ctx blinker_v) by (split; reflexivity).
  assert (Hb : binary_grid (cells blinker_v))
    by (apply (bool_decide_unpack _); vm_compute; exact I).
  assert (Hin : in_grid 0 1) by (vm_compute; intuition discriminate).
  split; [exact Hwf |]. split; [exact Hb |]. split; [exact Hin |].
  exact (gol_step_life_rule blinker_v 0 1 Hwf Hb Hin).
Defined.

(** C2.  For all [int] coordinates, [getAtPos] returns the stored cell
    inside [[0, width) x [0, height)] and [Dead] outside; it is a function
    of the context and changes nothing.  So the neighbour count of a cell
    of the grid is the sum over the eight adjacent positions of the stored
    cell, an adjacent position off the grid counting 0 whatever the grid
    holds. *)
Theorem getAtPos_spec ctx x y :
  wf_ctx ctx -> is_int x -> is_int y ->
  (in_grid x y -> cells ctx !! position x y = Some (getAtPos ctx x y))
  /\ (~ in_grid x y -> getAtPos ctx x y = Dead)
  /\ (in_grid x y ->
      neighbors ctx x y
      = sumZ ((fun d => getAtPos ctx (x + d.1) (y + d.2)) <$> adjacent8)
      /\ length adjacent8 = 8%nat
      /\ Forall (fun d => ~ in_grid (x + d.1) (y + d.2) ->
                          getAtPos ctx (x + d.1) (y + d.2) = 0) adjacent8).
Proof.
  intros [Hc _] Hx Hy. split; [| split].
  - intros Hin. rewrite (getAtPos_inside ctx x y Hin).
    apply array_get_lookup. rewrite Hc. apply position_lt, Hin.
  - apply getAtPos_outside; assumption.
  - intros Hin.
    assert (Hadj : Forall (fun d : Z * Z => -1 <= d.1 <= 1 /\ -1 <= d.2 <= 1)
                     adjacent8)
      by (unfold adjacent8; repeat constructor; simpl; lia).
    split; [| split].
    + rewrite (neighbors_sum ctx x y Hin). f_equal.
      apply Forall_fmap_ext_1. eapply Forall_impl; [exact Hadj |].
      intros d [Hd1 Hd2]. cbv beta.
      destruct (in_grid_is_int x y d.1 d.2 Hin Hd1 Hd2).
      symmetry. apply getAtPos_cell_at; assumption.
    + reflexivity.
    + eapply Forall_impl; [exact Hadj |].
      intros d [Hd1 Hd2] Hout.
      destruct (in_grid_is_int x y d.1 d.2 Hin Hd1 Hd2).
      apply getAtPos_outside; assumption.
Qed.

Lemma getAtPos_spec_witness :
  wf_ctx blinker_v /\ is_int 0 /\ is_int 1
  /\ cells blinker_v !! position 0 1 = Some (getAtPos blinker_v 0 1)
  /\ neighbors blinker_v 0 1
     = sumZ ((fun d => getAtPos blinker_v (0 + d.1) (1 + d.2)) <$> adjacent8).
Proof.
  assert (Hwf : wf_ctx blinker_v) by (split; reflexivity).
  assert (H0 : is_int 0) by (unfold is_int; lia).
  assert (H1 : is_int 1) by (unfold is_int; lia).
  assert (Hin : in_grid 0 1) by (vm_compute; intuition discriminate).
  destruct (getAtPos_spec blinker_v 0 1 Hwf H0 H1) as (Hget & _ & Hn).
  split; [exact Hwf |]. split; [exact H0 |]. split; [exact H1 |].
  split; [exact (Hget Hin) | exact (proj1 (Hn Hin))].
Defined.

(** C3.  From a state whose [last_step] is not after [now], one call of
    [SDL_AppIterate] runs [gol_step] once per whole [STEP_RATE] that fits
    in [now - last_step], adding [STEP_RATE] to [last_step] each time, and
    stops with less than one period left.  With
    [now = last_step + 3 * STEP_RATE] it runs exactly 3 steps and advances
    [last_step] by exactly [3 * STEP_RATE]. *)
Theorem SDL_AppIterate_catch_up (fuel : nat) now st :
  is_Uint64 now -> 0 <= last_step st <= now ->
  (Z.to_nat ((now - last_step st) / STEP_RATE_IN_MILLISECONDS) <= fuel)%nat ->
  exists out,
    SDL_AppIterate fuel now st = Some out
    /\ frame_steps out
       = Z.to_nat ((now - last_step st) / STEP_RATE_IN_MILLISECONDS)
    /\ gol_ctx (frame_state out)
       = Nat.iter (frame_steps out) gol_step (gol_ctx st)
    /\ last_step (frame_state out)
       = last_step st
         + Z.of_nat (frame_steps out) * STEP_RATE_IN_MILLISECONDS
    /\ 0 <= now - last_step (frame_state out) < STEP_RATE_IN_MILLISECONDS
    /\ (now = last_step st + 3 * STEP_RATE_IN_MILLISECONDS ->
        frame_steps out = 3%nat
        /\ gol_ctx (frame_state out) = Nat.iter 3 gol_step (gol_ctx st)
        /\ last_step (frame_state out)
           = last_step st + 3 * STEP_RATE_IN_MILLISECONDS).
Proof.
  intros Hnow Hl Hf.
  destruct (catch_up_exact now st Hnow Hl) as (Hd & Hex & Hrem).
  destruct (SDL_AppIterate_total fuel now st) as
    (out & Hout & _ & Hk & Hlast & Hctx & _); [rewrite Hd; exact Hf |].
  rewrite Hd in Hk. rewrite <- Hk in Hex, Hrem. rewrite <- Hlast in Hex, Hrem.
  exists out. repeat (split; [assumption |]).
  intros ->.
  assert (H3 : frame_steps out = 3%nat).
  { rewrite Hk. unfold STEP_RATE_IN_MILLISECONDS.
    replace (last_step st + 3 * 250 - last_step st) with (3 * 250) by lia.
    reflexivity. }
  rewrite H3 in Hctx, Hex.
  split; [exact H3 |]. split; [exact Hctx |]. rewrite Hex. lia.
Qed.

Lemma SDL_AppIterate_catch_up_witness :
  is_Uint64 1750 /\ 0 <= last_step (example_app blinker_v 1000) <= 1750
  /\ exists out,
       SDL_AppIterate 3 1750 (example_app blinker_v 1000) = Some out
       /\ frame_steps out = 3%nat
       /\ last_step (frame_state out) = 1750.
Proof.
  assert (Hn : is_Uint64 1750) by (unfold is_Uint64; lia).
  assert (Hl : 0 <= last_step (example_app blinker_v 1000) <= 1750)
    by (simpl; lia).
  assert (Hf : (Z.to_nat ((1750 - last_step (example_app blinker_v 1000))
                          / STEP_RATE_IN_MILLISECONDS) <= 3)%nat)
    by (vm_compute; lia).
  split; [exact Hn |]. split; [exact Hl |].
  destruct (SDL_AppIterate_catch_up 3 1750 (example_app blinker_v 1000)
              Hn Hl Hf) as (out & Hout & _ & _ & _ & _ & H3).
  exists out. split; [exact Hout |].
  destruct (H3 eq_refl) as (Hk & _ & Hlast). split; [exact Hk | exact Hlast].
Defined.

(** C5.  From a state whose [last_step] is not after [now], one call of
    [SDL_AppIterate] with [now < last_step + STEP_RATE] runs no step and
    leaves [last_step], and the grid, unchanged. *)
Theorem SDL_AppIterate_no_step (fuel : nat) now st :
  is_Uint64 now -> 0 <= last_step st <= now ->
  now < last_step st + STEP_RATE_IN_MILLISECONDS ->
  exists out,
    SDL_AppIterate fuel now st = Some out
    /\ frame_steps out = 0%nat
    /\ last_step (frame_state out) = last_step st
    /\ gol_ctx (frame_state out) = gol_ctx st.
Proof.
  intros Hnow Hl Hlt.
  assert (Hk : Z.to_nat (to_Uint64 (now - last_step st)
                         / STEP_RATE_IN_MILLISECONDS) = 0%nat).
  { unfold to_Uint64, is_Uint64, STEP_RATE_IN_MILLISECONDS in *.
    rewrite Z.mod_small by lia. rewrite Z.div_small by lia. reflexivity. }
  destruct (SDL_AppIterate_total fuel now st) as
    (out & Hout & _ & Hsteps & Hlast & Hctx & _); [lia |].
  rewrite Hk in Hsteps. rewrite Hsteps in Hlast, Hctx.
  exists out. repeat split; assumption.
Qed.

Lemma SDL_AppIterate_no_step_witness :
  is_Uint64 1249 /\ 0 <= last_step (example_app blinker_v 1000) <= 1249
  /\ 1249 < last_step (example_app blinker_v 1000) + STEP_RATE_IN_MILLISECONDS
  /\ exists out,
       SDL_AppIterate 0 1249 (example_app blinker_v 1000) = Some out
       /\ frame_steps out = 0%nat
       /\ last_step (frame_state out) = 1000.
Proof.
  assert (Hn : is_Uint64 1249) by (unfold is_Uint64; lia).
  assert (Hl : 0 <= last_step (example_app blinker_v 1000) <= 1249)
    by (simpl; lia).
  assert (Hlt : 1249 < last_step (example_app blinker_v 1000)
                       + STEP_RATE_IN_MILLISECONDS) by (vm_compute; reflexivity).
  split; [exact Hn |]. split; [exact Hl |]. split; [exact Hlt |].
  destruct (SDL_AppIterate_no_step 0 1249 (example_app blinker_v 1000)
              Hn Hl Hlt) as (out & Hout & Hk & Hlast & _).
  exists out. split; [exact Hout |]. split; [exact Hk | exact Hlast].
Defined.

(** ** Initialisation of the application *)

Lemma SDL_AppInit_last_step {RngState : Type}
    (SDL_rand : Z -> RngState -> Z * RngState) env g st g' :
  SDL_AppInit SDL_rand env g = (SDL_APP_CONTINUE, Some st, g') ->
  last_step st = init_ticks env.
Proof.
  unfold SDL_AppInit. intros H.
  repeat match type of H with
  | (if ?b then _ else _) = _ => destruct b; [discriminate |]
  end.
  destruct (create_renderer env); [| discriminate].
  destruct (gol_initialize SDL_rand _ g). injection H as <- _.
  reflexivity.
Qed.

(** C8.  The clock of the simulation is created once, by [SDL_AppInit],
    from the tick count.  Over every sequence of frames whose tick counts
    never decrease from there, every frame runs to its end and [last_step]
    is its initial value plus a whole number of periods: it moves only by
    additions of [STEP_RATE] and is never set to the current time.  Over
    any sequence of tick counts at all, the same holds in [Uint64]
    arithmetic. *)
Theorem last_step_whole_periods {RngState : Type}
    (SDL_rand : Z -> RngState -> Z * RngState) env g st g' nows :
  SDL_AppInit SDL_rand env g = (SDL_APP_CONTINUE, Some st, g') ->
  is_Uint64 (init_ticks env) -> Forall is_Uint64 nows ->
  Sorted Z.le (init_ticks env :: nows) ->
  last_step st = init_ticks env
  /\ (exists st', run_frames max_catch_up nows st = Some st')
  /\ (forall (fuel : nat) st',
        run_frames fuel nows st = Some st' ->
        exists k : nat,
          last_step st'
          = init_ticks env + Z.of_nat k * STEP_RATE_IN_MILLISECONDS)
  /\ (forall (fuel : nat) (ticks : list Z) st',
        run_frames fuel ticks st = Some st' ->
        exists k : nat,
          last_step st'
          = to_Uint64 (init_ticks env
                       + Z.of_nat k * STEP_RATE_IN_MILLISECONDS)).
Proof.
  intros Hinit Ht Hu Hs.
  pose proof (SDL_AppInit_last_step SDL_rand env g st g' Hinit) as H0.
  split; [exact H0 |]. split; [apply run_frames_total |]. split.
  - intros fuel st' Hrun. rewrite <- H0.
    apply (run_frames_last_step fuel nows (init_ticks env) st st');
      try assumption.
    rewrite H0. unfold is_Uint64 in Ht. lia.
  - intros fuel ticks st' Hrun. rewrite <- H0.
    apply (run_frames_last_step_mod fuel ticks st st'); [| exact Hrun].
    rewrite H0. exact Ht.
Qed.

Lemma last_step_whole_periods_witness :
  let env := mkInitEnv true (fun _ => true) true true true
                       (Some blank_renderer) 1000 in
  let nows := [1100; 1800; 1800; 2300] in
  exists st g',
    SDL_AppInit lcg_rand env 7 = (SDL_APP_CONTINUE, Some st, g')
    /\ is_Uint64 (init_ticks env)
    /\ Forall is_Uint64 nows
    /\ Sorted Z.le (init_ticks env :: nows)
    /\ last_step st = init_ticks env
    /\ (exists st', run_frames max_catch_up nows st = Some st')
    /\ forall (fuel : nat) st',
         run_frames fuel nows st = Some st' ->
         exists k : nat,
           last_step st'
           = init_ticks env + Z.of_nat k * STEP_RATE_IN_MILLISECONDS.
Proof.
  intros env nows. eexists. eexists.
  assert (Ht : is_Uint64 (init_ticks env)) by (vm_compute; split; congruence).
  assert (Hu : Forall is_Uint64 nows)
    by (repeat constructor; vm_compute; congruence).
  assert (Hs : Sorted Z.le (init_ticks env :: nows))
    by (repeat constructor; vm_compute; congruence).
  split; [vm_compute; reflexivity |].
  split; [exact Ht |]. split; [exact Hu |]. split; [exact Hs |].
  destruct (last_step_whole_periods lcg_rand env 7 _ _ nows
              ltac:(vm_compute; reflexivity) Ht Hu Hs)
    as (H0 & Hrun & Hexact & _).
  split; [exact H0 |]. split; [exact Hrun | exact Hexact].
Defined.

(** C4.  One frame clears to the background colour, fills one square per
    live cell in the foreground colour, and presents; but it then fills
    one square more, with the rectangle that the loops left: with the
    single live cell [(0, 0)] the frame issues two fills for one live
    cell, and on the empty grid it issues one fill, whose origin was never
    assigned, for none. *)
Theorem draw_frame_extra_fill :
  let one := mkGol (grid_of [(0, 0)]) SDL_zeroa in
  let none := mkGol SDL_zeroa SDL_zeroa in
  (exists out,
     SDL_AppIterate 0 0 (example_app one 0) = Some out
     /\ frame_steps out = 0%nat
     /\ count_alive (cells (gol_ctx (frame_state out))) = 1%nat
     /\ ops (renderer (frame_state out))
        = [OpClear background;
           OpFillRect (cell_square (0, 0)) foreground;
           OpFillRect (cell_square (0, 0)) foreground;
           OpPresent])
  /\ (exists out,
        SDL_AppIterate 0 0 (example_app none 0) = Some out
        /\ frame_steps out = 0%nat
        /\ count_alive (cells (gol_ctx (frame_state out))) = 0%nat
        /\ ops (renderer (frame_state out))
           = [OpClear background;
              OpFillRect (mkRect None None (Some 23) (Some 23)) foreground;
              OpPresent]).
Proof.
  split; eexists; (split; [vm_compute; reflexivity |]);
    repeat split; vm_compute; reflexivity.
Qed.

(** C6.  On the 24 x 18 grid whose live cells are [(1, 0)], [(1, 1)] and
    [(1, 2)], one [gol_step] leaves exactly [(0, 1)], [(1, 1)] and
    [(2, 1)] alive, and a second one restores the original grid. *)
Theorem blinker_period_two :
  GAME_WIDTH = 24 /\ GAME_HEIGHT = 18
  /\ wf_ctx blinker_v /\ wf_ctx blinker_h
  /\ Forall (fun p => cell_at (cells blinker_v) p.1 p.2
                      = if bool_decide (p ∈ [(1, 0); (1, 1); (1, 2)])
                        then Alive else Dead) all_positions
  /\ Forall (fun p => cell_at (cells blinker_h) p.1 p.2
                      = if bool_decide (p ∈ [(0, 1); (1, 1); (2, 1)])
                        then Alive else Dead) all_positions
  /\ cells (gol_step blinker_v) = cells blinker_h
  /\ cells (gol_step (gol_step blinker_v)) = cells blinker_v.
Proof.
  split; [reflexivity |]. split; [reflexivity |].
  split; [split; reflexivity |]. split; [split; reflexivity |].
  split; [apply (bool_decide_unpack _); vm_compute; exact I |].
  split; [apply (bool_decide_unpack _); vm_compute; exact I |].
  split; vm_compute; reflexivity.
Qed.

(** C9.  [SDL_AppEvent] returns [SDL_APP_SUCCESS] exactly on a quit event
    and on a key-down of Escape or Q, and [SDL_APP_CONTINUE] on everything
    else; a key-down of R runs [gol_initialize] on the grid; every other
    event leaves the grid, and the random generator, as they were.  No
    event touches the clock, the window or the renderer. *)
Theorem SDL_AppEvent_spec {RngState : Type}
    (SDL_rand : Z -> RngState -> Z * RngState) st ev g :
  let r := SDL_AppEvent SDL_rand st ev g in
  (r.1.1 = SDL_APP_SUCCESS <-> is_quit_event ev)
  /\ (r.1.1 = SDL_APP_CONTINUE <-> ~ is_quit_event ev)
  /\ (is_restart_event ev ->
      r.1.1 = SDL_APP_CONTINUE
      /\ (gol_ctx r.1.2, r.2) = gol_initialize SDL_rand (gol_ctx st) g)
  /\ (~ is_restart_event ev -> gol_ctx r.1.2 = gol_ctx st /\ r.2 = g)
  /\ last_step r.1.2 = last_step st
  /\ window r.1.2 = window st
  /\ renderer r.1.2 = renderer st.
Proof.
  unfold SDL_AppEvent, handle_key_event_, is_quit_event, is_restart_event.
  unfold SDL_EVENT_QUIT, SDL_EVENT_KEY_DOWN, SDL_SCANCODE_ESCAPE,
    SDL_SCANCODE_Q, SDL_SCANCODE_R.
  destruct (gol_initialize SDL_rand (gol_ctx st) g) as [ctx' g'] eqn:Einit.
  destruct (event_type ev =? 256) eqn:E1;
    [apply Z.eqb_eq in E1 | apply Z.eqb_neq in E1].
  { cbn [fst snd]. repeat split; intros; try discriminate; try lia; tauto. }
  destruct (event_type ev =? 768) eqn:E2;
    [apply Z.eqb_eq in E2 | apply Z.eqb_neq in E2].
  2: { cbn [fst snd]. repeat split; intros; try discriminate; try lia;
       try tauto. }
  destruct (key_scancode ev =? 41) eqn:E3;
    [apply Z.eqb_eq in E3 | apply Z.eqb_neq in E3].
  { cbn [fst snd gol_ctx last_step window renderer].
    repeat split; intros; try discriminate; try lia; tauto. }
  destruct (key_scancode ev =? 20) eqn:E4;
    [apply Z.eqb_eq in E4 | apply Z.eqb_neq in E4].
  { cbn [fst snd gol_ctx last_step window renderer].
    repeat split; intros; try discriminate; try lia; tauto. }
  destruct (key_scancode ev =? 21) eqn:E5;
    [apply Z.eqb_eq in E5 | apply Z.eqb_neq in E5].
  - cbn [fst snd gol_ctx last_step window renderer].
    repeat split; intros; try discriminate; try lia; try tauto.
  - cbn [fst snd gol_ctx last_step window renderer].
    repeat split; intros; try discriminate; try lia; try tauto.
Qed.

Lemma elem_of_to_nat_fmap (ds : list Z) (i : nat) :
  Forall (fun d => 0 <= d) ds ->
  i ∈ Z.to_nat <$> ds <-> Z.of_nat i ∈ ds.
Proof.
  intros Hr. rewrite list_elem_of_fmap. split.
  - intros (d & -> & Hd). rewrite Forall_forall in Hr. specialize (Hr d Hd).
    rewrite Z2Nat.id by lia. exact Hd.
  - intros Hi. exists (Z.of_nat i). split; [lia | exact Hi].
Qed.

(** C7.  [gol_initialize], over any generator that answers in range:
    the grid is first all [Dead]; then exactly
    [GAME_WIDTH * GAME_HEIGHT / 2 = 216] values are drawn from
    [[0, GAME_WIDTH * GAME_HEIGHT)] and each drawn cell is set [Alive].
    Afterwards a cell is [Alive] if it was drawn and [Dead] if not, at
    most 216 cells are [Alive], and exactly 216 are just when no position
    was drawn twice. *)
Theorem gol_initialize_draws {RngState : Type}
    (SDL_rand : Z -> RngState -> Z * RngState) ctx g :
  SDL_rand_range SDL_rand ->
  let n := Z.to_nat (GAME_CELLS / 2) in
  let ds := rand_draws SDL_rand n GAME_CELLS g in
  let r := gol_initialize SDL_rand ctx g in
  n = 216%nat
  /\ r.2 = rand_after SDL_rand n GAME_CELLS g
  /\ length ds = n
  /\ Forall (fun d => 0 <= d < GAME_CELLS) ds
  /\ cells r.1 = mark_alive ds (replicate (Z.to_nat GAME_CELLS) Dead)
  /\ newCells r.1 = newCells ctx
  /\ wf_grid (cells r.1)
  /\ (forall i : nat,
        (i < Z.to_nat GAME_CELLS)%nat ->
        cells r.1 !! i
        = Some (if bool_decide (Z.of_nat i ∈ ds) then Alive else Dead))
  /\ (count_alive (cells r.1) <= n)%nat
  /\ (count_alive (cells r.1) = n <-> NoDup ds).
Proof.
  intros Hrange n ds r.
  assert (Hds : Forall (fun d => 0 <= d < GAME_CELLS) ds)
    by (apply rand_draws_range; [exact Hrange | reflexivity]).
  assert (Hlen : length ds = n) by apply rand_draws_length.
  assert (Hr : r = (mkGol (mark_alive ds SDL_zeroa) (newCells ctx),
                    rand_after SDL_rand n GAME_CELLS g))
    by apply gol_initialize_eq.
  rewrite Hr. cbn [fst snd cells newCells].
  assert (Hcount : count_alive (mark_alive ds SDL_zeroa)
                   = length (remove_dups ds))
    by (apply count_alive_mark, Hds).
  split; [reflexivity |]. split; [reflexivity |]. split; [exact Hlen |].
  split; [exact Hds |]. split; [reflexivity |]. split; [reflexivity |].
  split; [unfold wf_grid; rewrite mark_alive_length; apply SDL_zeroa_length |].
  split; [| split].
  - intros i Hi.
    rewrite mark_alive_lookup by (rewrite SDL_zeroa_length; exact Hi).
    rewrite SDL_zeroa_lookup by exact Hi.
    assert (Hiff : i ∈ Z.to_nat <$> ds <-> Z.of_nat i ∈ ds).
    { apply elem_of_to_nat_fmap. eapply Forall_impl; [exact Hds |].
      intros d Hd. cbv beta in Hd. lia. }
    repeat case_bool_decide; tauto || reflexivity.
  - rewrite Hcount, <- Hlen. apply remove_dups_length_le.
  - rewrite Hcount, <- Hlen. apply remove_dups_length_eq.
Qed.

Lemma gol_initialize_draws_witness :
  SDL_rand_range lcg_rand
  /\ (gol_initialize lcg_rand blinker_v 7).2
     = rand_after lcg_rand 216 GAME_CELLS 7
  /\ (count_alive (cells (gol_initialize lcg_rand blinker_v 7%Z).1) <= 216)%nat.
Proof.
  split; [exact lcg_rand_range |].
  destruct (gol_initialize_draws lcg_rand blinker_v 7 lcg_rand_range)
    as (_ & Hg & _ & _ & _ & _ & _ & _ & Hle & _).
  split; [exact Hg | exact Hle].
Defined.

(** C10.  After [gol_initialize] every cell is 0 or 1, and [gol_step]
    keeps it so: each new cell is 0, 1, or the byte of the cell it
    replaces.  On such a grid [getAtPos] returns 0 or 1 and every
    neighbour count lies between 0 and 8. *)
Theorem binary_invariant {RngState : Type}
    (SDL_rand : Z -> RngState -> Z * RngState) ctx g x y :
  SDL_rand_range SDL_rand -> wf_ctx ctx ->
  binary_grid (cells (gol_initialize SDL_rand ctx g).1)
  /\ wf_ctx (gol_initialize SDL_rand ctx g).1
  /\ (in_grid x y ->
      exists v, cells (gol_step ctx) !! position x y = Some v
                /\ (v = 0 \/ v = 1 \/ v = to_uchar (getAtPos ctx x y)))
  /\ (binary_grid (cells ctx) ->
      binary_grid (cells (gol_step ctx))
      /\ (getAtPos ctx x y = 0 \/ getAtPos ctx x y = 1)
      /\ 0 <= neighbors ctx x y <= 8).
Proof.
  intros _ Hwf.
  split; [apply gol_initialize_binary |].
  split; [apply gol_initialize_wf, Hwf |].
  split.
  - intros Hin. exists (next_cell ctx x y).
    split; [apply gol_step_lookup; assumption |].
    unfold next_cell. destruct (_ =? 3); [right; left; reflexivity |].
    destruct (_ =? 2); [right; right; reflexivity | left; reflexivity].
  - intros Hb. split; [apply gol_step_binary; assumption |].
    split; [apply getAtPos_binary, Hb | apply neighbors_range, Hb].
Qed.

Lemma binary_invariant_witness :
  SDL_rand_range lcg_rand /\ wf_ctx blinker_v
  /\ binary_grid (cells (gol_initialize lcg_rand blinker_v 7).1)
  /\ binary_grid (cells (gol_step blinker_v))
  /\ 0 <= neighbors blinker_v 1 1 <= 8.
Proof.
  assert (Hwf : wf_ctx blinker_v) by (split; reflexivity).
  assert (Hb : binary_grid (cells blinker_v))
    by (apply (bool_decide_unpack _); vm_compute; exact I).
  split; [exact lcg_rand_range |]. split; [exact Hwf |].
  destruct (binary_invariant lcg_rand blinker_v 7 1 1 lcg_rand_range Hwf)
    as (Hinit & _ & _ & Hstep).
  split; [exact Hinit |].
  destruct (Hstep Hb) as (Hs & _ & Hn). split; [exact Hs | exact Hn].
Defined.

(** * Further properties of the code *)

(** ** One step on arbitrary bytes *)

Lemma neighbour_sum_eq ctx x y :
  in_grid x y -> neighbors ctx x y = neighbour_sum (cells ctx) x y.
Proof. apply neighbors_sum. Qed.

Lemma next_cell_byte_rule ctx x y :
  in_grid x y ->
  next_cell ctx x y
  = byte_rule (cell_at (cells ctx) x y) (neighbour_sum (cells ctx) x y).
Proof.
  intros Hin. unfold next_cell, byte_rule.
  rewrite (neighbour_sum_eq ctx x y Hin).
  rewrite (getAtPos_inside ctx x y Hin).
  unfold cell_at. rewrite (bool_decide_eq_true_2 (in_grid x y)) by exact Hin.
  reflexivity.
Qed.

Lemma gol_step_lookup_sum ctx x y :
  wf_ctx ctx -> in_grid x y ->
  cells (gol_step ctx) !! position x y
  = Some (byte_rule (cell_at (cells ctx) x y)
                    (neighbour_sum (cells ctx) x y)).
Proof.
  intros Hwf Hin. rewrite (gol_step_lookup ctx x y Hwf Hin).
  f_equal. apply next_cell_byte_rule, Hin.
Qed.

Lemma to_uchar_small c : is_uchar c -> to_uchar c = c.
Proof. intros H. unfold to_uchar. apply Z.mod_small. exact H. Qed.

Lemma array_get_uchar g (i : nat) :
  Forall is_uchar g -> is_uchar (array_get g i).
Proof.
  intros Hb. unfold array_get. destruct (g !! i) as [v |] eqn:E; simpl.
  - exact (Forall_lookup_1 _ _ _ _ Hb E).
  - unfold is_uchar. lia.
Qed.

Lemma cell_at_uchar g x y : Forall is_uchar g -> is_uchar (cell_at g x y).
Proof.
  intros Hb. unfold cell_at. case_bool_decide.
  - apply array_get_uchar, Hb.
  - unfold is_uchar, Dead. lia.
Qed.

Lemma byte_rule_uchar c s : is_uchar (byte_rule c s).
Proof.
  unfold byte_rule, is_uchar, to_uchar.
  destruct (s =? 3); [lia |]. destruct (s =? 2); [| lia].
  apply Z.mod_pos_bound. lia.
Qed.

Lemma gol_step_cells_Forall (P : Z -> Prop) ctx :
  wf_ctx ctx ->
  (forall x y, in_grid x y ->
     P (byte_rule (cell_at (cells ctx) x y)
                  (neighbour_sum (cells ctx) x y))) ->
  Forall P (cells (gol_step ctx)).
Proof.
  intros Hwf HP. apply Forall_lookup. intros k c Hk.
  pose proof (lookup_lt_Some _ _ _ Hk) as Hlt.
  destruct (gol_step_wf ctx Hwf) as [Hlen _]. unfold wf_grid in Hlen.
  destruct (position_of_index k) as (x & y & Hin & <-); [lia |].
  rewrite (gol_step_lookup_sum ctx x y Hwf Hin) in Hk.
  injection Hk as <-. apply HP, Hin.
Qed.

(** X1.  [gol_step] on a grid of arbitrary bytes: the neighbour count is
    the sum of the eight adjacent bytes, not the number of non-zero ones.
    A cell becomes 1 when that sum is 3, keeps its byte when the sum is 2
    and becomes 0 otherwise; the result is again a grid of bytes. *)
Theorem gol_step_byte_sum ctx x y :
  wf_ctx ctx -> Forall is_uchar (cells ctx) -> in_grid x y ->
  cells (gol_step ctx) !! position x y
  = Some (if neighbour_sum (cells ctx) x y =? 3 then 1
          else if neighbour_sum (cells ctx) x y =? 2
               then cell_at (cells ctx) x y
               else 0)
  /\ Forall is_uchar (cells (gol_step ctx)).
Proof.
  intros Hwf Hb Hin. split.
  - rewrite (gol_step_lookup_sum ctx x y Hwf Hin). unfold byte_rule.
    rewrite (to_uchar_small _ (cell_at_uchar _ x y Hb)). reflexivity.
  - apply gol_step_cells_Forall; [exact Hwf |].
    intros x' y' _. apply byte_rule_uchar.
Qed.

Lemma gol_step_byte_sum_witness :
  let ctx := mkGol (<[position 5 5 := 3]> SDL_zeroa) SDL_zeroa in
  wf_ctx ctx /\ Forall is_uchar (cells ctx) /\ in_grid 4 4
  /\ neighbour_sum (cells ctx) 4 4 = 3
  /\ cells (gol_step ctx) !! position 4 4 = Some 1.
Proof.
  intros ctx.
  assert (Hwf : wf_ctx ctx) by (split; reflexivity).
  assert (Hb : Forall is_uchar (cells ctx))
    by (apply (bool_decide_unpack _); vm_compute; exact I).
  assert (Hin : in_grid 4 4) by (vm_compute; intuition discriminate).
  split; [exact Hwf |]. split; [exact Hb |]. split; [exact Hin |].
  split; [vm_compute; reflexivity |].
  exact (proj1 (gol_step_byte_sum ctx 4 4 Hwf Hb Hin)).
Defined.

(** X2.  The new value of a cell depends on the 3 x 3 block around it
    only: two grids that agree there give the cell the same value. *)
Theorem gol_step_local c1 c2 x y :
  wf_ctx c1 -> wf_ctx c2 -> in_grid x y ->
  (forall dx dy, -1 <= dx <= 1 -> -1 <= dy <= 1 ->
     cell_at (cells c1) (x + dx) (y + dy)
     = cell_at (cells c2) (x + dx) (y + dy)) ->
  cells (gol_step c1) !! position x y = cells (gol_step c2) !! position x y.
Proof.
  intros H1 H2 Hin Hagree.
  rewrite (gol_step_lookup_sum c1 x y H1 Hin).
  rewrite (gol_step_lookup_sum c2 x y H2 Hin).
  f_equal. f_equal.
  - specialize (Hagree 0 0 ltac:(lia) ltac:(lia)).
    rewrite !Z.add_0_r in Hagree. exact Hagree.
  - unfold neighbour_sum. f_equal. apply Forall_fmap_ext_1.
    unfold adjacent8. repeat constructor; cbn [fst snd]; apply Hagree; lia.
Qed.

Lemma gol_step_local_witness :
  let c1 := blinker_v in
  let c2 := mkGol (<[position 20 15 := 1]> (cells blinker_v)) SDL_zeroa in
  wf_ctx c1 /\ wf_ctx c2 /\ in_grid 1 1
  /\ cells c1 <> cells c2
  /\ cells (gol_step c1) !! position 1 1 = cells (gol_step c2) !! position 1 1.
Proof.
  intros c1 c2.
  assert (H1 : wf_ctx c1) by (split; reflexivity).
  assert (H2 : wf_ctx c2) by (split; reflexivity).
  assert (Hin : in_grid 1 1) by (vm_compute; intuition discriminate).
  split; [exact H1 |]. split; [exact H2 |]. split; [exact Hin |].
  split; [vm_compute; discriminate |].
  apply (gol_step_local c1 c2 1 1 H1 H2 Hin).
  intros dx dy Hdx Hdy.
  assert (Hc : forall a b : Z, 0 <= a <= 2 -> 0 <= b <= 2 ->
               cell_at (cells c1) a b = cell_at (cells c2) a b).
  { intros a b Ha Hb.
    assert (Ea : a = 0 \/ a = 1 \/ a = 2) by lia.
    assert (Eb : b = 0 \/ b = 1 \/ b = 2) by lia.
    destruct Ea as [-> | [-> | ->]], Eb as [-> | [-> | ->]];
      vm_compute; reflexivity. }
  apply Hc; lia.
Defined.

(** ** Sparse grids *)

Lemma count_alive_seq g :
  count_alive g
  = length (filter (fun i : nat => array_get g i = Alive) (seq 0 (length g))).
Proof.
  unfold count_alive. rewrite (array_as_fmap g) at 1.
  symmetry. apply filter_fmap_length. intros i. reflexivity.
Qed.

Lemma cell_at_alive_in_grid g x y : cell_at g x y = Alive -> in_grid x y.
Proof.
  unfold cell_at. case_bool_decide as Hin; [intros _; exact Hin |].
  discriminate.
Qed.

(** The live cells of a 3 x 3 block are live cells of the grid. *)
Lemma block_count g x y :
  wf_grid g ->
  (length (filter (fun d : Z * Z => cell_at g (x + d.1) (y + d.2) = Alive)
                  ((0%Z, 0%Z) :: adjacent8))
   <= count_alive g)%nat.
Proof.
  intros Hwf. unfold wf_grid in Hwf. rewrite count_alive_seq.
  set (L := filter _ ((0, 0) :: adjacent8)).
  rewrite <- (length_fmap (fun d : Z * Z => position (x + d.1) (y + d.2)) L).
  apply submseteq_length, NoDup_submseteq.
  - apply NoDup_fmap_2_strong.
    + intros d1 d2 H1 H2 Heq. subst L.
      apply list_elem_of_filter in H1 as [A1 _], H2 as [A2 _].
      apply cell_at_alive_in_grid in A1, A2.
      destruct (position_inj _ _ _ _ A1 A2 Heq) as [E1 E2].
      destruct d1, d2; cbn [fst snd] in *. f_equal; lia.
    + subst L. apply NoDup_filter. unfold adjacent8.
      apply (bool_decide_unpack _). vm_compute. exact I.
  - intros i Hi. apply list_elem_of_fmap in Hi as (d & -> & Hd).
    subst L. apply list_elem_of_filter in Hd as [A _].
    pose proof (cell_at_alive_in_grid _ _ _ A) as Hin.
    apply list_elem_of_filter. split.
    + unfold cell_at in A.
      rewrite bool_decide_eq_true_2 in A by exact Hin. exact A.
    + apply elem_of_seq. pose proof (position_lt _ _ Hin). lia.
Qed.

Lemma SDL_zeroa_eq g :
  wf_grid g ->
  (forall x y, in_grid x y -> g !! position x y = Some 0) ->
  g = SDL_zeroa.
Proof.
  intros Hwf Hall. unfold wf_grid in Hwf. apply list_eq. intros k.
  destruct (decide (k < Z.to_nat GAME_CELLS)%nat) as [Hlt | Hge].
  - rewrite SDL_zeroa_lookup by exact Hlt.
    destruct (position_of_index k Hlt) as (x & y & Hin & <-).
    apply Hall, Hin.
  - rewrite !lookup_ge_None_2; [reflexivity | |]; try lia.
    rewrite SDL_zeroa_length. lia.
Qed.

(** X3.  A grid of live and dead cells with at most two live cells is
    empty after one [gol_step]: no cell has two live neighbours to keep
    it, or three to be born.  In particular the empty grid stays empty. *)
Theorem gol_step_sparse_dies ctx :
  wf_ctx ctx -> binary_grid (cells ctx) ->
  (count_alive (cells ctx) <= 2)%nat ->
  cells (gol_step ctx) = SDL_zeroa.
Proof.
  intros Hwf Hb Hcount.
  apply SDL_zeroa_eq; [exact (proj1 (gol_step_wf ctx Hwf)) |].
  intros x y Hin.
  rewrite (gol_step_lookup ctx x y Hwf Hin).
  rewrite (next_cell_life_rule ctx x y Hin Hb). f_equal.
  pose proof (block_count (cells ctx) x y (proj1 Hwf)) as Hblock.
  rewrite filter_cons in Hblock. cbn [fst snd] in Hblock.
  rewrite !Z.add_0_r in Hblock.
  fold (live_neighbours (cells ctx) x y) in Hblock.
  unfold live_neighbours in *.
  set (n := length (filter _ adjacent8)) in *.
  unfold life_rule.
  destruct (cell_at_binary (cells ctx) x y Hb) as [Hc | Hc]; rewrite Hc in *.
  - rewrite decide_False in Hblock by discriminate.
    rewrite bool_decide_eq_false_2 by discriminate.
    rewrite bool_decide_eq_false_2 by lia. reflexivity.
  - rewrite decide_True in Hblock by reflexivity. cbn [length] in Hblock.
    rewrite bool_decide_eq_true_2 by reflexivity.
    rewrite bool_decide_eq_false_2 by lia. reflexivity.
Qed.

Lemma gol_step_sparse_dies_witness :
  let ctx := mkGol (grid_of [(1, 0); (1, 1)]) SDL_zeroa in
  wf_ctx ctx /\ binary_grid (cells ctx)
  /\ (count_alive (cells ctx) <= 2)%nat
  /\ cells (gol_step ctx) = SDL_zeroa.
Proof.
  intros ctx.
  assert (Hwf : wf_ctx ctx) by (split; reflexivity).
  assert (Hb : binary_grid (cells ctx))
    by (apply (bool_decide_unpack _); vm_compute; exact I).
  assert (Hc : (count_alive (cells ctx) <= 2)%nat) by (vm_compute; lia).
  split; [exact Hwf |]. split; [exact Hb |]. split; [exact Hc |].
  exact (gol_step_sparse_dies ctx Hwf Hb Hc).
Defined.

(** ** Mirror images *)

Lemma grid_init_wf f : wf_grid (grid_init f).
Proof.
  unfold wf_grid, grid_init. rewrite length_fmap, length_seq. reflexivity.
Qed.

Lemma grid_init_lookup f x y :
  in_grid x y -> grid_init f !! position x y = Some (f x y).
Proof.
  intros Hin. pose proof (position_lt x y Hin) as Hlt.
  unfold grid_init. rewrite list_lookup_fmap, lookup_seq_lt by exact Hlt.
  cbn [fmap option_fmap option_map Nat.add]. f_equal.
  destruct Hin as [Hx Hy].
  unfold position, GAME_WIDTH, GAME_HEIGHT in *.
  rewrite Z2Nat.id by lia.
  assert (Hm : (x + y * 24) mod 24 = x)
    by (rewrite Z.mod_add by lia; apply Z.mod_small; lia).
  assert (Hd : (x + y * 24) / 24 = y)
    by (rewrite Z.div_add by lia; rewrite Z.div_small by lia; lia).
  rewrite Hm, Hd. reflexivity.
Qed.

Lemma cell_at_lookup g x y v :
  in_grid x y -> g !! position x y = Some v -> cell_at g x y = v.
Proof.
  intros Hin Hv. unfold cell_at, array_get.
  rewrite bool_decide_eq_true_2 by exact Hin. rewrite Hv. reflexivity.
Qed.

Lemma cell_at_outside g x y : ~ in_grid x y -> cell_at g x y = Dead.
Proof.
  intros Hout. unfold cell_at. rewrite bool_decide_eq_false_2 by exact Hout.
  reflexivity.
Qed.

Lemma cell_at_flip_x g x y :
  cell_at (flip_x g) x y = cell_at g (GAME_WIDTH - 1 - x) y.
Proof.
  destruct (decide (in_grid x y)) as [Hin | Hout].
  - apply cell_at_lookup; [exact Hin |]. unfold flip_x.
    exact (grid_init_lookup (fun a b => cell_at g (GAME_WIDTH - 1 - a) b)
             x y Hin).
  - rewrite !cell_at_outside; [reflexivity | | exact Hout].
    unfold in_grid, GAME_WIDTH in *. lia.
Qed.

Lemma cell_at_flip_y g x y :
  cell_at (flip_y g) x y = cell_at g x (GAME_HEIGHT - 1 - y).
Proof.
  destruct (decide (in_grid x y)) as [Hin | Hout].
  - apply cell_at_lookup; [exact Hin |]. unfold flip_y.
    exact (grid_init_lookup (fun a b => cell_at g a (GAME_HEIGHT - 1 - b))
             x y Hin).
  - rewrite !cell_at_outside; [reflexivity | | exact Hout].
    unfold in_grid, GAME_HEIGHT in *. lia.
Qed.

Lemma cell_at_eq g a b a' b' :
  a = a' -> b = b' -> cell_at g a b = cell_at g a' b'.
Proof. intros -> ->. reflexivity. Qed.

Lemma neighbour_sum_flip_x g x y :
  neighbour_sum (flip_x g) x y = neighbour_sum g (GAME_WIDTH - 1 - x) y.
Proof.
  unfold neighbour_sum, sumZ, adjacent8.
  cbn [fmap list_fmap foldr fst snd]. rewrite !cell_at_flip_x.
  rewrite (cell_at_eq g (GAME_WIDTH - 1 - (x + -1)) (y + -1)
             (GAME_WIDTH - 1 - x + 1) (y + -1)) by lia.
  rewrite (cell_at_eq g (GAME_WIDTH - 1 - (x + 0)) (y + -1)
             (GAME_WIDTH - 1 - x + 0) (y + -1)) by lia.
  rewrite (cell_at_eq g (GAME_WIDTH - 1 - (x + 1)) (y + -1)
             (GAME_WIDTH - 1 - x + -1) (y + -1)) by lia.
  rewrite (cell_at_eq g (GAME_WIDTH - 1 - (x + -1)) (y + 0)
             (GAME_WIDTH - 1 - x + 1) (y + 0)) by lia.
  rewrite (cell_at_eq g (GAME_WIDTH - 1 - (x + 1)) (y + 0)
             (GAME_WIDTH - 1 - x + -1) (y + 0)) by lia.
  rewrite (cell_at_eq g (GAME_WIDTH - 1 - (x + -1)) (y + 1)
             (GAME_WIDTH - 1 - x + 1) (y + 1)) by lia.
  rewrite (cell_at_eq g (GAME_WIDTH - 1 - (x + 0)) (y + 1)
             (GAME_WIDTH - 1 - x + 0) (y + 1)) by lia.
  rewrite (cell_at_eq g (GAME_WIDTH - 1 - (x + 1)) (y + 1)
             (GAME_WIDTH - 1 - x + -1) (y + 1)) by lia.
  lia.
Qed.

Lemma neighbour_sum_flip_y g x y :
  neighbour_sum (flip_y g) x y = neighbour_sum g x (GAME_HEIGHT - 1 - y).
Proof.
  unfold neighbour_sum, sumZ, adjacent8.
  cbn [fmap list_fmap foldr fst snd]. rewrite !cell_at_flip_y.
  rewrite (cell_at_eq g (x + -1) (GAME_HEIGHT - 1 - (y + -1))
             (x + -1) (GAME_HEIGHT - 1 - y + 1)) by lia.
  rewrite (cell_at_eq g (x + 0) (GAME_HEIGHT - 1 - (y + -1))
             (x + 0) (GAME_HEIGHT - 1 - y + 1)) by lia.
  rewrite (cell_at_eq g (x + 1) (GAME_HEIGHT - 1 - (y + -1))
             (x + 1) (GAME_HEIGHT - 1 - y + 1)) by lia.
  rewrite (cell_at_eq g (x + -1) (GAME_HEIGHT - 1 - (y + 0))
             (x + -1) (GAME_HEIGHT - 1 - y + 0)) by lia.
  rewrite (cell_at_eq g (x + 1) (GAME_HEIGHT - 1 - (y + 0))
             (x + 1) (GAME_HEIGHT - 1 - y + 0)) by lia.
  rewrite (cell_at_eq g (x + -1) (GAME_HEIGHT - 1 - (y + 1))
             (x + -1) (GAME_HEIGHT - 1 - y + -1)) by lia.
  rewrite (cell_at_eq g (x + 0) (GAME_HEIGHT - 1 - (y + 1))
             (x + 0) (GAME_HEIGHT - 1 - y + -1)) by lia.
  rewrite (cell_at_eq g (x + 1) (GAME_HEIGHT - 1 - (y + 1))
             (x + 1) (GAME_HEIGHT - 1 - y + -1)) by lia.
  lia.
Qed.

Lemma grid_ext g1 g2 :
  wf_grid g1 -> wf_grid g2 ->
  (forall x y, in_grid x y -> g1 !! position x y = g2 !! position x y) ->
  g1 = g2.
Proof.
  intros H1 H2 Hall. unfold wf_grid in *. apply list_eq. intros k.
  destruct (decide (k < Z.to_nat GAME_CELLS)%nat) as [Hlt | Hge].
  - destruct (position_of_index k Hlt) as (x & y & Hin & <-).
    apply Hall, Hin.
  - rewrite !lookup_ge_None_2 by lia. reflexivity.
Qed.

(** [gol_step] commutes with a change of coordinates that the rule is
    symmetric under. *)
Lemma gol_step_mirror ctx (m : list Z -> list Z) (mx my : Z -> Z) :
  wf_ctx ctx ->
  (forall g, wf_grid (m g)) ->
  (forall g x y, in_grid x y -> m g !! position x y
                                = Some (cell_at g (mx x) (my y))) ->
  (forall x y, in_grid x y -> in_grid (mx x) (my y)) ->
  (forall g x y, neighbour_sum (m g) x y = neighbour_sum g (mx x) (my y)) ->
  cells (gol_step (mkGol (m (cells ctx)) (newCells ctx)))
  = m (cells (gol_step ctx)).
Proof.
  intros Hwf Hmwf Hm Hin Hsum.
  assert (Hwf' : wf_ctx (mkGol (m (cells ctx)) (newCells ctx)))
    by (split; [apply Hmwf | apply Hwf]).
  apply grid_ext; [exact (proj1 (gol_step_wf _ Hwf')) | apply Hmwf |].
  intros x y Hxy.
  rewrite (gol_step_lookup_sum _ x y Hwf' Hxy). cbn [cells].
  rewrite (Hm _ x y Hxy), Hsum. f_equal.
  rewrite (cell_at_lookup _ x y _ Hxy (Hm _ x y Hxy)).
  symmetry. apply cell_at_lookup; [apply Hin, Hxy |].
  apply gol_step_lookup_sum; [exact Hwf | apply Hin, Hxy].
Qed.

(** X4.  [gol_step] has no preferred direction, and treats the four
    edges of the grid alike: mirroring the grid left to right, or top to
    bottom, and then stepping gives the mirror image of the stepped
    grid. *)
Theorem gol_step_flip ctx :
  wf_ctx ctx ->
  cells (gol_step (mkGol (flip_x (cells ctx)) (newCells ctx)))
  = flip_x (cells (gol_step ctx))
  /\ cells (gol_step (mkGol (flip_y (cells ctx)) (newCells ctx)))
     = flip_y (cells (gol_step ctx)).
Proof.
  intros Hwf. split.
  - apply (gol_step_mirror ctx flip_x (fun x => GAME_WIDTH - 1 - x)
             (fun y => y)); [exact Hwf | | | |].
    + intros g. apply grid_init_wf.
    + intros g x y Hin.
      exact (grid_init_lookup (fun a b => cell_at g (GAME_WIDTH - 1 - a) b)
               x y Hin).
    + unfold in_grid, GAME_WIDTH. lia.
    + apply neighbour_sum_flip_x.
  - apply (gol_step_mirror ctx flip_y (fun x => x)
             (fun y => GAME_HEIGHT - 1 - y)); [exact Hwf | | | |].
    + intros g. apply grid_init_wf.
    + intros g x y Hin.
      exact (grid_init_lookup (fun a b => cell_at g a (GAME_HEIGHT - 1 - b))
               x y Hin).
    + unfold in_grid, GAME_HEIGHT. lia.
    + apply neighbour_sum_flip_y.
Qed.

Lemma gol_step_flip_witness :
  wf_ctx blinker_v
  /\ flip_x (cells blinker_v) <> cells blinker_v
  /\ cells (gol_step (mkGol (flip_x (cells blinker_v)) (newCells blinker_v)))
     = flip_x (cells (gol_step blinker_v)).
Proof.
  assert (Hwf : wf_ctx blinker_v) by (split; reflexivity).
  split; [exact Hwf |]. split; [vm_compute; discriminate |].
  exact (proj1 (gol_step_flip blinker_v Hwf)).
Defined.

(** ** Initialisation, restart and the life cycle *)

Lemma remove_dups_nonempty {A} `{EqDecision A} (l : list A) :
  l <> [] -> (1 <= length (remove_dups l))%nat.
Proof.
  destruct l as [| a l]; [congruence |]. intros _.
  assert (Ha : a ∈ remove_dups (a :: l))
    by (apply elem_of_remove_dups; left).
  destruct (remove_dups (a :: l)); [inversion Ha | simpl; lia].
Qed.

Lemma gol_initialize_count {RngState : Type}
    (SDL_rand : Z -> RngState -> Z * RngState) ctx g :
  SDL_rand_range SDL_rand ->
  (1 <= count_alive (cells (gol_initialize SDL_rand ctx g).1) <= 216)%nat.
Proof.
  intros Hr. rewrite gol_initialize_eq. cbn [fst cells].
  set (ds := rand_draws SDL_rand (Z.to_nat (GAME_CELLS / 2)) GAME_CELLS g).
  assert (Hlen : length ds = 216%nat) by apply rand_draws_length.
  rewrite count_alive_mark
    by (apply rand_draws_range; [exact Hr | reflexivity]).
  split.
  - apply remove_dups_nonempty. intros E. rewrite E in Hlen. discriminate.
  - rewrite <- Hlen. apply remove_dups_length_le.
Qed.

(** X5.  [gol_initialize] forgets the grid it is given: the new cells and
    the state of the generator depend on the generator only.  It never
    leaves the grid empty, and it does not touch [newCells]. *)
Theorem gol_initialize_reset {RngState : Type}
    (SDL_rand : Z -> RngState -> Z * RngState) c1 c2 g :
  SDL_rand_range SDL_rand ->
  cells (gol_initialize SDL_rand c1 g).1
  = cells (gol_initialize SDL_rand c2 g).1
  /\ (gol_initialize SDL_rand c1 g).2 = (gol_initialize SDL_rand c2 g).2
  /\ newCells (gol_initialize SDL_rand c1 g).1 = newCells c1
  /\ (1 <= count_alive (cells (gol_initialize SDL_rand c1 g).1))%nat.
Proof.
  intros Hr.
  split; [rewrite !gol_initialize_eq; reflexivity |].
  split; [rewrite !gol_initialize_eq; reflexivity |].
  split; [rewrite gol_initialize_eq; reflexivity |].
  apply (gol_initialize_count SDL_rand c1 g Hr).
Qed.

Lemma gol_initialize_reset_witness :
  SDL_rand_range lcg_rand
  /\ cells (gol_initialize lcg_rand blinker_v 7).1
     = cells (gol_initialize lcg_rand blinker_h 7).1
  /\ (1 <= count_alive (cells (gol_initialize lcg_rand blinker_v 7%Z).1))%nat.
Proof.
  split; [exact lcg_rand_range |].
  destruct (gol_initialize_reset lcg_rand blinker_v blinker_h 7
              lcg_rand_range) as (Hc & _ & _ & Hn).
  split; [exact Hc | exact Hn].
Defined.

Lemma SDL_AppInit_success {RngState : Type}
    (SDL_rand : Z -> RngState -> Z * RngState) env g st g' :
  SDL_AppInit SDL_rand env g = (SDL_APP_CONTINUE, Some st, g') ->
  exists rd,
    create_renderer env = Some rd
    /\ st = mkApp (mkWindow "Game of Life"%string SDL_WINDOW_WIDTH
                            SDL_WINDOW_HEIGHT)
                  rd
                  (gol_initialize SDL_rand (mkGol SDL_zeroa SDL_zeroa) g).1
                  (init_ticks env)
    /\ g' = (gol_initialize SDL_rand (mkGol SDL_zeroa SDL_zeroa) g).2.
Proof.
  unfold SDL_AppInit. intros H.
  repeat match type of H with
  | (if ?b then _ else _) = _ => destruct b; [discriminate |]
  end.
  destruct (create_renderer env) as [rd |]; [| discriminate].
  exists rd. split; [reflexivity |].
  destruct (gol_initialize SDL_rand _ g) as [ctx g1].
  injection H as <- <-. split; reflexivity.
Qed.

(** X6.  The key R restarts the grid as the launch made it: from the
    same state of the generator, [SDL_AppEvent] on a key-down of R leaves
    the cells, and the generator, that [SDL_AppInit] leaves, whatever the
    grid was.  The clock is not restarted: [last_step] stays. *)
Theorem restart_as_launch {RngState : Type}
    (SDL_rand : Z -> RngState -> Z * RngState) env g st0 g0 st ev :
  SDL_AppInit SDL_rand env g = (SDL_APP_CONTINUE, Some st0, g0) ->
  is_restart_event ev ->
  (SDL_AppEvent SDL_rand st ev g).1.1 = SDL_APP_CONTINUE
  /\ cells (gol_ctx (SDL_AppEvent SDL_rand st ev g).1.2) = cells (gol_ctx st0)
  /\ (SDL_AppEvent SDL_rand st ev g).2 = g0
  /\ last_step (SDL_AppEvent SDL_rand st ev g).1.2 = last_step st.
Proof.
  intros Hinit [Ht Hk].
  destruct (SDL_AppInit_success SDL_rand env g st0 g0 Hinit)
    as (rd & _ & -> & ->).
  unfold SDL_AppEvent, handle_key_event_. rewrite Ht, Hk.
  cbn [Z.eqb SDL_EVENT_QUIT SDL_EVENT_KEY_DOWN SDL_SCANCODE_ESCAPE
       SDL_SCANCODE_Q SDL_SCANCODE_R Pos.eqb].
  cbn [gol_ctx].
  rewrite (surjective_pairing (gol_initialize SDL_rand (gol_ctx st) g)).
  cbn [fst snd gol_ctx last_step].
  rewrite !gol_initialize_eq. cbn [fst snd cells].
  repeat split; reflexivity.
Qed.

Lemma restart_as_launch_witness :
  let env := mkInitEnv true (fun _ => true) true true true
                       (Some blank_renderer) 1000 in
  let ev := mkEvent SDL_EVENT_KEY_DOWN SDL_SCANCODE_R in
  let st := example_app blinker_v 5000 in
  exists st0 g0,
    SDL_AppInit lcg_rand env 7 = (SDL_APP_CONTINUE, Some st0, g0)
    /\ is_restart_event ev
    /\ cells (gol_ctx (SDL_AppEvent lcg_rand st ev 7).1.2)
       = cells (gol_ctx st0)
    /\ last_step (SDL_AppEvent lcg_rand st ev 7).1.2 = 5000.
Proof.
  intros env ev st. eexists. eexists.
  assert (Hev : is_restart_event ev) by (split; reflexivity).
  split; [vm_compute; reflexivity |]. split; [exact Hev |].
  destruct (restart_as_launch lcg_rand env 7 _ _ st ev
              ltac:(vm_compute; reflexivity) Hev) as (_ & Hc & _ & Hl).
  split; [exact Hc | exact Hl].
Defined.

Lemma metadata_properties_ok env :
  forallb (set_metadata_property_ok env) (seq 0 4) = true
  <-> (forall i : nat, (i < 4)%nat -> set_metadata_property_ok env i = true).
Proof.
  rewrite forallb_forall. split.
  - intros H i Hi. apply H, in_seq. lia.
  - intros H i Hi. apply in_seq in Hi. apply H. lia.
Qed.

(** X11.  [SDL_AppInit] returns [SDL_APP_CONTINUE] when every call that
    can fail succeeds, and [SDL_APP_FAILURE] as soon as one fails, never
    [SDL_APP_SUCCESS].  On failure the generator has not been used.  On
    success the window is 576 x 432 and is called "Game of Life", the
    clock is the tick count, exactly 216 values were drawn, and the grid
    is well formed with between 1 and 216 live cells and no other
    byte than 0 and 1. *)
Theorem SDL_AppInit_outcome {RngState : Type}
    (SDL_rand : Z -> RngState -> Z * RngState) env g :
  SDL_rand_range SDL_rand ->
  (SDL_AppInit SDL_rand env g).1.1 <> SDL_APP_SUCCESS
  /\ (~ init_succeeds env ->
      (SDL_AppInit SDL_rand env g).1.1 = SDL_APP_FAILURE
      /\ (SDL_AppInit SDL_rand env g).2 = g)
  /\ (init_succeeds env ->
      exists st,
        SDL_AppInit SDL_rand env g
        = (SDL_APP_CONTINUE, Some st,
           rand_after SDL_rand 216 GAME_CELLS g)
        /\ create_renderer env = Some (renderer st)
        /\ window st = mkWindow "Game of Life"%string 576 432
        /\ last_step st = init_ticks env
        /\ wf_ctx (gol_ctx st)
        /\ binary_grid (cells (gol_ctx st))
        /\ (1 <= count_alive (cells (gol_ctx st)) <= 216)%nat).
Proof.
  intros Hr. unfold SDL_AppInit, init_succeeds.
  pose proof (metadata_properties_ok env) as Hprops.
  destruct (set_metadata_ok env);
    [| cbn [negb fst snd]; repeat split; try discriminate;
       intros H; exfalso; destruct H; discriminate].
  destruct (forallb (set_metadata_property_ok env) (seq 0 4)) eqn:Ep;
    [| cbn [negb fst snd]; repeat split; try discriminate;
       intros (_ & H & _); apply Hprops in H; discriminate].
  destruct (sdl_init_ok env);
    [| cbn [negb fst snd]; repeat split; try discriminate;
       intros (_ & _ & H & _); discriminate].
  destruct (calloc_ok env);
    [| cbn [negb fst snd]; repeat split; try discriminate;
       intros (_ & _ & _ & H & _); discriminate].
  destruct (create_window_ok env);
    [| cbn [negb fst snd]; repeat split; try discriminate;
       intros (_ & _ & _ & _ & H & _); discriminate].
  cbn [negb]. destruct (create_renderer env) as [rd |];
    [| cbn [fst snd]; repeat split; try discriminate;
       intros (_ & _ & _ & _ & _ & [rd H]); discriminate].
  pose proof (gol_initialize_eq SDL_rand (mkGol SDL_zeroa SDL_zeroa) g) as Heq.
  pose proof (gol_initialize_wf SDL_rand (mkGol SDL_zeroa SDL_zeroa) g
                (conj SDL_zeroa_length SDL_zeroa_length)) as Hwf.
  pose proof (gol_initialize_binary SDL_rand (mkGol SDL_zeroa SDL_zeroa) g)
    as Hb.
  pose proof (gol_initialize_count SDL_rand (mkGol SDL_zeroa SDL_zeroa) g Hr)
    as Hc.
  destruct (gol_initialize SDL_rand (mkGol SDL_zeroa SDL_zeroa) g)
    as [ctx g'].
  cbn [fst snd] in *.
  split; [discriminate |]. split.
  - intros H. exfalso. apply H.
    pose proof (proj1 Hprops eq_refl) as Hp.
    repeat split; eauto.
  - intros _.
    exists (mkApp (mkWindow "Game of Life"%string SDL_WINDOW_WIDTH
                            SDL_WINDOW_HEIGHT) rd ctx (init_ticks env)).
    injection Heq as _ Hg.
    split; [rewrite Hg; reflexivity |].
    cbn [renderer window last_step gol_ctx].
    split; [reflexivity |]. split; [reflexivity |]. split; [reflexivity |].
    split; [exact Hwf |]. split; [exact Hb | exact Hc].
Qed.

Lemma SDL_AppInit_outcome_witness :
  let env := mkInitEnv true (fun _ => true) true true true
                       (Some blank_renderer) 1000 in
  SDL_rand_range lcg_rand /\ init_succeeds env
  /\ exists st,
       SDL_AppInit lcg_rand env 7
       = (SDL_APP_CONTINUE, Some st, rand_after lcg_rand 216 GAME_CELLS 7)
       /\ last_step st = 1000
       /\ binary_grid (cells (gol_ctx st)).
Proof.
  intros env.
  assert (Hs : init_succeeds env)
    by (repeat split; try reflexivity; exists blank_renderer; reflexivity).
  split; [exact lcg_rand_range |]. split; [exact Hs |].
  destruct (SDL_AppInit_outcome lcg_rand env 7 lcg_rand_range)
    as (_ & _ & Hok).
  destruct (Hok Hs) as (st & Heq & _ & _ & Hl & _ & Hb & _).
  exists st. split; [exact Heq |]. split; [exact Hl | exact Hb].
Defined.

(** X13.  Whatever [SDL_AppInit] acquired, [SDL_AppQuit] gives back, once
    each and in the reverse order: after a failure at any point of the
    initialisation, with [*appstate] as that point left it, and after any
    run of the callbacks.  The two models of [SDL_AppInit] agree. *)
Theorem init_quit_balanced {RngState : Type}
    (SDL_rand : Z -> RngState -> Z * RngState) env g :
  let r := SDL_AppInit_raw SDL_rand env g in
  SDL_AppQuit r.1.1.2 r.1.1.1 = rev r.1.2
  /\ NoDup r.1.2
  /\ (r.1.1.1 = SDL_APP_CONTINUE
      <-> r.1.2 = [ResState; ResWindow; ResRenderer])
  /\ r.1.1.1 = (SDL_AppInit SDL_rand env g).1.1
  /\ r.2 = (SDL_AppInit SDL_rand env g).2
  /\ (forall st, (SDL_AppInit SDL_rand env g).1.2 = Some st ->
        r.1.1.2 = Some (raw_of_app st)
        /\ forall (fuel : nat) cbs res st' g',
             run_app SDL_rand fuel cbs st r.2 = Some (res, st', g') ->
             SDL_AppQuit (Some (raw_of_app st')) res = rev r.1.2).
Proof.
  unfold SDL_AppInit_raw, SDL_AppInit.
  destruct (set_metadata_ok env);
    [| cbn; repeat split; try constructor; try discriminate].
  destruct (forallb (set_metadata_property_ok env) (seq 0 4));
    [| cbn; repeat split; try constructor; try discriminate].
  destruct (sdl_init_ok env);
    [| cbn; repeat split; try constructor; try discriminate].
  destruct (calloc_ok env);
    [| cbn; repeat split; try constructor; try discriminate].
  destruct (create_window_ok env).
  2: { cbn [negb fst snd SDL_AppQuit zeroed_state raw_renderer raw_window
            SDL_DestroyRenderer SDL_DestroyWindow app rev].
       repeat split; try discriminate.
       apply (bool_decide_unpack _); vm_compute; exact I. }
  cbn [negb]. destruct (create_renderer env) as [rd |].
  2: { cbn [fst snd SDL_AppQuit raw_renderer raw_window
            SDL_DestroyRenderer SDL_DestroyWindow app rev].
       repeat split; try discriminate.
       apply (bool_decide_unpack _); vm_compute; exact I. }
  cbn [zeroed_state raw_gol_ctx].
  destruct (gol_initialize SDL_rand (mkGol SDL_zeroa SDL_zeroa) g)
    as [ctx g'].
  cbn [fst snd SDL_AppQuit raw_renderer raw_window
       SDL_DestroyRenderer SDL_DestroyWindow app rev].
  split; [reflexivity |].
  split; [apply (bool_decide_unpack _); vm_compute; exact I |].
  split; [split; reflexivity |]. split; [reflexivity |].
  split; [reflexivity |].
  intros st Hst. injection Hst as <-. split; reflexivity.
Qed.

(** ** The frame loop in general *)

Lemma SDL_AppIterate_inv_full (fuel : nat) now st out :
  SDL_AppIterate fuel now st = Some out ->
  frame_result out = SDL_APP_CONTINUE
  /\ frame_steps out
     = Z.to_nat (to_Uint64 (now - last_step st) / STEP_RATE_IN_MILLISECONDS)
  /\ last_step (frame_state out)
     = last_step (Nat.iter (frame_steps out) catch_up_once st)
  /\ gol_ctx (frame_state out)
     = Nat.iter (frame_steps out) gol_step (gol_ctx st)
  /\ window (frame_state out) = window st
  /\ renderer (frame_state out)
     = draw_frame (gol_ctx (frame_state out)) (renderer st).
Proof.
  unfold SDL_AppIterate. intros H.
  destruct (catch_up fuel now st) as [[k st'] |] eqn:E; [| discriminate].
  injection H as <-.
  cbn [frame_result frame_steps frame_state last_step gol_ctx window renderer].
  destruct (catch_up_inv fuel now st k st' E) as [Hk ->].
  rewrite iter_catch_up_once_ctx.
  destruct (iter_catch_up_once_frame k st) as [-> ->].
  repeat split; try reflexivity. exact Hk.
Qed.

Lemma iter_catch_up_once_gap (k : nat) now st :
  STEP_RATE_IN_MILLISECONDS * Z.of_nat k <= to_Uint64 (now - last_step st) ->
  to_Uint64 (now - last_step (Nat.iter k catch_up_once st))
  = to_Uint64 (now - last_step st) - STEP_RATE_IN_MILLISECONDS * Z.of_nat k.
Proof.
  unfold STEP_RATE_IN_MILLISECONDS. induction k as [| k IH]; intros Hk.
  - cbn [Nat.iter nat_rect]. lia.
  - rewrite Nat.iter_succ, catch_up_once_last_step.
    unfold to_Uint64 in *. rewrite Zminus_mod_idemp_r.
    replace (now - (last_step (Nat.iter k catch_up_once st)
                    + STEP_RATE_IN_MILLISECONDS))
      with (now - last_step (Nat.iter k catch_up_once st) - 250)
      by (unfold STEP_RATE_IN_MILLISECONDS; lia).
    rewrite <- Zminus_mod_idemp_l, IH by lia.
    pose proof (Z.mod_pos_bound (now - last_step st) (2 ^ 64) ltac:(lia)).
    rewrite Z.mod_small; lia.
Qed.

(** X7.  The catch-up loop of [SDL_AppIterate] ends from every state and
    every tick count, after as many steps as whole periods fit in the
    [Uint64] difference [now - last_step], and leaves less than a period
    of it; the frame then returns [SDL_APP_CONTINUE].  When the tick count
    is behind [last_step] the difference wraps around and the frame
    runs [(2 ^ 64 - (last_step - now)) / 250] steps. *)
Theorem SDL_AppIterate_terminates now st :
  exists out,
    SDL_AppIterate max_catch_up now st = Some out
    /\ (forall (fuel : nat) out',
          SDL_AppIterate fuel now st = Some out' -> out' = out)
    /\ frame_result out = SDL_APP_CONTINUE
    /\ frame_steps out
       = Z.to_nat (to_Uint64 (now - last_step st)
                   / STEP_RATE_IN_MILLISECONDS)
    /\ 0 <= to_Uint64 (now - last_step (frame_state out))
         < STEP_RATE_IN_MILLISECONDS
    /\ (is_Uint64 now -> is_Uint64 (last_step st) -> now < last_step st ->
        frame_steps out
        = Z.to_nat ((2 ^ 64 - (last_step st - now))
                    / STEP_RATE_IN_MILLISECONDS)).
Proof.
  destruct (SDL_AppIterate_total max_catch_up now st
              (max_catch_up_enough now st))
    as (out & Hout & Hres & Hk & Hlast & _).
  exists out. split; [exact Hout |]. split; [| split; [exact Hres |]].
  - intros fuel out' Hout'. unfold SDL_AppIterate in Hout, Hout'.
    destruct (catch_up fuel now st) as [[k' s'] |] eqn:E'; [| discriminate].
    destruct (catch_up max_catch_up now st) as [[k s] |] eqn:E;
      [| discriminate].
    destruct (catch_up_inv _ _ _ _ _ E') as [-> ->].
    destruct (catch_up_inv _ _ _ _ _ E) as [-> ->].
    congruence.
  - split; [exact Hk |]. split.
    + rewrite Hlast, iter_catch_up_once_gap; rewrite Hk;
        unfold to_Uint64, STEP_RATE_IN_MILLISECONDS in *;
        pose proof (Z.mod_pos_bound (now - last_step st) (2 ^ 64)
                      ltac:(lia));
        set (d := (now - last_step st) mod 2 ^ 64) in *;
        pose proof (Z.div_mod d 250 ltac:(lia));
        pose proof (Z.mod_pos_bound d 250 ltac:(lia));
        assert (0 <= d / 250) by (apply Z.div_pos; lia);
        rewrite Z2Nat.id by lia; lia.
    + intros Hn Hl Hlt. rewrite Hk. f_equal. f_equal.
      unfold to_Uint64, is_Uint64 in *.
      replace (now - last_step st)
        with (2 ^ 64 - (last_step st - now) + -1 * 2 ^ 64) by lia.
      rewrite Z.mod_add by lia. apply Z.mod_small. lia.
Qed.

(** A run of frames does what one frame at the last tick count does. *)
Lemma run_frames_catch_up nows (fuel : nat) st st' now :
  0 <= last_step st -> Sorted Z.le (last_step st :: nows) ->
  Forall is_Uint64 nows -> last nows = Some now ->
  run_frames fuel nows st = Some st' ->
  gol_ctx st'
  = Nat.iter (Z.to_nat ((now - last_step st) / STEP_RATE_IN_MILLISECONDS))
             gol_step (gol_ctx st)
  /\ last_step st'
     = last_step st
       + Z.of_nat (Z.to_nat ((now - last_step st)
                             / STEP_RATE_IN_MILLISECONDS))
         * STEP_RATE_IN_MILLISECONDS.
Proof.
  revert st. induction nows as [| t nows IH]; intros st Hl Hs Hu Hlast Hrun;
    [discriminate |].
  cbn [run_frames] in Hrun.
  destruct (SDL_AppIterate fuel t st) as [out |] eqn:E; [| discriminate].
  apply Sorted_inv in Hs as [Hs Hhd]. apply HdRel_inv in Hhd.
  apply Forall_cons in Hu as [Ht Hu].
  destruct (SDL_AppIterate_inv_full fuel t st out E)
    as (_ & Hk & Hlast1 & Hctx1 & _).
  destruct (catch_up_exact t st Ht ltac:(lia)) as (Hd & Hex & Hrem).
  rewrite Hd in Hk. rewrite <- Hk in Hex, Hrem.
  rewrite <- Hlast1 in Hex, Hrem.
  destruct nows as [| t' nows].
  - injection Hrun as <-. injection Hlast as <-.
    rewrite Hctx1, Hex, Hk. split; reflexivity.
  - assert (Hlast' : last (t' :: nows) = Some now)
      by (rewrite last_cons_cons in Hlast; exact Hlast).
    assert (Hle : t <= t') by (apply Sorted_inv in Hs as [_ H];
                               apply HdRel_inv in H; exact H).
    assert (Hl1 : 0 <= last_step (frame_state out) <= t)
      by (unfold STEP_RATE_IN_MILLISECONDS in *; lia).
    assert (Hs' : Sorted Z.le (last_step (frame_state out) :: t' :: nows)).
    { apply Sorted_inv in Hs as [Hs _]. constructor; [exact Hs |].
      constructor. lia. }
    destruct (IH (frame_state out) ltac:(lia) Hs' Hu Hlast' Hrun)
      as [Hctx Hl'].
    assert (Hnow : t' <= now).
    { clear -Hs Hlast'. apply Sorted_StronglySorted in Hs;
        [| intros a b c; apply Z.le_trans].
      apply StronglySorted_inv in Hs as [Hs _].
      apply last_Some_elem_of in Hlast'.
      apply elem_of_cons in Hlast' as [-> | Hin]; [lia |].
      apply StronglySorted_inv in Hs as [_ Hall].
      rewrite Forall_forall in Hall. apply Hall. exact Hin. }
    set (k1 := frame_steps out) in *.
    assert (Hsum : Z.to_nat ((now - last_step st)
                             / STEP_RATE_IN_MILLISECONDS)
                   = (Z.to_nat ((now - last_step (frame_state out))
                                / STEP_RATE_IN_MILLISECONDS) + k1)%nat).
    { rewrite Hex. unfold STEP_RATE_IN_MILLISECONDS in *.
      replace (now - (last_step st + Z.of_nat k1 * 250))
        with (now - last_step st + (- Z.of_nat k1) * 250) by lia.
      rewrite Z.div_add by lia.
      assert (0 <= (now - last_step st) / 250) by (apply Z.div_pos; lia).
      assert (Z.of_nat k1 <= (now - last_step st) / 250).
      { apply Z.div_le_lower_bound; lia. }
      lia. }
    rewrite Hsum, Nat.iter_add, <- Hctx1. split; [exact Hctx |].
    rewrite Hl', Hex. lia.
Qed.

(** X8.  The simulation does not depend on the frame rate: over frames
    whose tick counts never decrease from [last_step], the grid and the
    clock after the last frame are those that one single frame at the last
    tick count leaves, [(now - last_step) / 250] steps on. *)
Theorem frame_rate_independence (fuel fuel' : nat) nows now st st' out :
  0 <= last_step st -> Sorted Z.le (last_step st :: nows) ->
  Forall is_Uint64 nows -> last nows = Some now ->
  run_frames fuel nows st = Some st' ->
  SDL_AppIterate fuel' now st = Some out ->
  gol_ctx st' = gol_ctx (frame_state out)
  /\ last_step st' = last_step (frame_state out)
  /\ gol_ctx st'
     = Nat.iter (Z.to_nat ((now - last_step st) / STEP_RATE_IN_MILLISECONDS))
                gol_step (gol_ctx st).
Proof.
  intros Hl Hs Hu Hlast Hrun Hone.
  destruct (run_frames_catch_up nows fuel st st' now Hl Hs Hu Hlast Hrun)
    as [Hctx Hclock].
  assert (Hone' : run_frames fuel' [now] st = Some (frame_state out))
    by (cbn [run_frames]; rewrite Hone; reflexivity).
  assert (Hnow : is_Uint64 now /\ last_step st <= now).
  { apply last_Some_elem_of in Hlast. split.
    - rewrite Forall_forall in Hu. apply Hu, Hlast.
    - apply Sorted_StronglySorted in Hs; [| intros a b c; apply Z.le_trans].
      apply StronglySorted_inv in Hs as [_ Hall].
      rewrite Forall_forall in Hall. apply Hall, Hlast. }
  destruct Hnow as [Hn1 Hn2].
  assert (Hs1 : Sorted Z.le [last_step st; now])
    by (repeat constructor; exact Hn2).
  assert (Hu1 : Forall is_Uint64 [now])
    by (constructor; [exact Hn1 | constructor]).
  destruct (run_frames_catch_up [now] fuel' st (frame_state out) now Hl
              Hs1 Hu1 eq_refl Hone') as [Hctx1 Hclock1].
  rewrite Hctx, Hctx1, Hclock, Hclock1. repeat split; reflexivity.
Qed.

Lemma frame_rate_independence_witness :
  let st := example_app blinker_v 1000 in
  let nows := [1100; 1800; 1800; 2300] in
  0 <= last_step st /\ Sorted Z.le (last_step st :: nows)
  /\ Forall is_Uint64 nows /\ last nows = Some 2300
  /\ exists st' out,
       run_frames 5 nows st = Some st'
       /\ SDL_AppIterate 5 2300 st = Some out
       /\ gol_ctx st' = gol_ctx (frame_state out)
       /\ last_step st' = last_step (frame_state out).
Proof.
  intros st nows.
  assert (Hl : 0 <= last_step st) by (vm_compute; congruence).
  assert (Hs : Sorted Z.le (last_step st :: nows))
    by (repeat constructor; vm_compute; congruence).
  assert (Hu : Forall is_Uint64 nows)
    by (repeat constructor; vm_compute; congruence).
  assert (Hlast : last nows = Some 2300) by reflexivity.
  split; [exact Hl |]. split; [exact Hs |]. split; [exact Hu |].
  split; [exact Hlast |].
  eexists. eexists.
  split; [vm_compute; reflexivity |]. split; [vm_compute; reflexivity |].
  destruct (frame_rate_independence 5 5 nows 2300 st _ _ Hl Hs Hu Hlast
              ltac:(vm_compute; reflexivity) ltac:(vm_compute; reflexivity))
    as (Hc & Hk & _).
  split; [exact Hc | exact Hk].
Defined.

(** ** What a frame draws *)

Lemma draw_frame_color ctx rd : draw_color (draw_frame ctx rd) = foreground.
Proof.
  unfold draw_frame. rewrite draw_cells_eq.
  rewrite (draw_fold ctx all_positions _ _ all_positions_in_grid)
    by reflexivity.
  reflexivity.
Qed.

Lemma iter_gol_step_wf (k : nat) ctx :
  wf_ctx ctx -> wf_ctx (Nat.iter k gol_step ctx).
Proof.
  intros Hwf. induction k as [| k IH]; [exact Hwf |].
  rewrite Nat.iter_succ. apply gol_step_wf, IH.
Qed.

Lemma iter_gol_step_binary (k : nat) ctx :
  wf_ctx ctx -> binary_grid (cells ctx) ->
  binary_grid (cells (Nat.iter k gol_step ctx)).
Proof.
  intros Hwf Hb. induction k as [| k IH]; [exact Hb |].
  rewrite Nat.iter_succ.
  apply gol_step_binary; [apply iter_gol_step_wf, Hwf | exact IH].
Qed.

(** X9.  What one call of [SDL_AppIterate] asks of the renderer, after
    what it had been asked before: one clear in (96, 96, 96); one fill in
    (255, 255, 0) per non-zero cell of the grid as the steps of this very
    frame left it, column by column, a square of side 23 at 24 times the
    position; one more fill, of the rectangle that the loops left; one
    present.  So the frame issues one fill more than there are non-zero
    cells. *)
Theorem frame_drawing (fuel : nat) now st out :
  wf_ctx (gol_ctx st) ->
  SDL_AppIterate fuel now st = Some out ->
  gol_ctx (frame_state out)
  = Nat.iter (frame_steps out) gol_step (gol_ctx st)
  /\ ops (renderer (frame_state out))
     = ops (renderer st)
       ++ OpClear (mkColor 96 96 96 255)
       :: ((fun p => OpFillRect
                       (mkRect (Some (p.1 * 24)) (Some (p.2 * 24))
                               (Some 23) (Some 23))
                       (mkColor 255 255 0 255))
             <$> drawn_positions (gol_ctx (frame_state out)))
       ++ [OpFillRect (last_rect (gol_ctx (frame_state out)))
                      (mkColor 255 255 0 255);
           OpPresent]
  /\ draw_color (renderer (frame_state out)) = mkColor 255 255 0 255
  /\ length (filter is_fill (ops (renderer (frame_state out))))
     = (length (filter is_fill (ops (renderer st)))
        + count_nonzero (cells (gol_ctx (frame_state out))) + 1)%nat.
Proof.
  intros Hwf Hout.
  destruct (SDL_AppIterate_inv_full fuel now st out Hout)
    as (_ & _ & _ & Hctx & _ & Hrd).
  split; [exact Hctx |]. rewrite Hrd.
  split; [apply draw_frame_ops |].
  split; [apply draw_frame_color |].
  apply draw_frame_fill_count. rewrite Hctx.
  apply (iter_gol_step_wf _ _ Hwf).
Qed.

Lemma frame_drawing_witness :
  let st := example_app blinker_v 1000 in
  wf_ctx (gol_ctx st)
  /\ exists out,
       SDL_AppIterate 1 1250 st = Some out
       /\ length (filter is_fill (ops (renderer (frame_state out))))
          = (length (filter is_fill (ops (renderer st)))
             + count_nonzero (cells (gol_ctx (frame_state out))) + 1)%nat.
Proof.
  intros st.
  assert (Hwf : wf_ctx (gol_ctx st)) by (split; reflexivity).
  split; [exact Hwf |]. eexists.
  split; [vm_compute; reflexivity |].
  exact (proj2 (proj2 (proj2
           (frame_drawing 1 1250 st _ Hwf ltac:(vm_compute; reflexivity))))).
Defined.

Lemma drawn_positions_in_grid ctx p :
  p ∈ drawn_positions ctx -> in_grid p.1 p.2.
Proof.
  unfold drawn_positions. intros Hp.
  apply list_elem_of_filter in Hp as [_ Hp].
  destruct p as [x y]. apply elem_of_all_positions, Hp.
Qed.

Lemma cell_square_inside p :
  in_grid p.1 p.2 -> rect_inside_window (cell_square p).
Proof.
  intros [Hx Hy].
  unfold rect_inside_window, cell_square, SDL_WINDOW_WIDTH, SDL_WINDOW_HEIGHT,
    BLOCK_SIZE_IN_PIXELS, GAME_WIDTH, GAME_HEIGHT in *.
  cbn [rect_x rect_y rect_w rect_h]. lia.
Qed.

Lemma cell_square_apart p q :
  p <> q -> rects_apart (cell_square p) (cell_square q).
Proof.
  intros Hne. unfold rects_apart, cell_square, BLOCK_SIZE_IN_PIXELS.
  cbn [rect_x rect_y rect_w rect_h].
  destruct p as [x1 y1], q as [x2 y2]. cbn [fst snd].
  destruct (decide (x1 = x2)) as [-> | Hx]; [| lia].
  destruct (decide (y1 = y2)) as [-> | Hy]; [congruence | lia].
Qed.

(** X10.  Every fill that a frame issues is in the foreground colour.
    Its rectangle is either the never-assigned one, and then no cell of
    the grid is non-zero, or the square of a non-zero cell; such a
    square lies inside the window of [SDL_WINDOW_WIDTH] by
    [SDL_WINDOW_HEIGHT] pixels and at least one pixel away from the
    square of every other cell. *)
Theorem frame_fills_geometry ctx rd r c :
  (OpFillRect r c ∈ ops (draw_frame ctx rd)) ->
  (OpFillRect r c ∉ ops rd) ->
  c = foreground
  /\ ((drawn_positions ctx = []
       /\ r = mkRect None None (Some 23) (Some 23))
      \/ (exists p,
            p ∈ drawn_positions ctx /\ in_grid p.1 p.2
            /\ r = cell_square p
            /\ rect_inside_window r
            /\ forall q, q <> p -> rects_apart r (cell_square q))).
Proof.
  intros Hin Hold. rewrite draw_frame_ops in Hin.
  apply elem_of_app in Hin as [Hin | Hin]; [contradiction |].
  apply elem_of_cons in Hin as [Hin | Hin]; [discriminate |].
  assert (Hsq : forall p, p ∈ drawn_positions ctx ->
            exists p', p' ∈ drawn_positions ctx /\ in_grid p'.1 p'.2
              /\ cell_square p = cell_square p'
              /\ rect_inside_window (cell_square p)
              /\ forall q, q <> p' -> rects_apart (cell_square p)
                                                   (cell_square q)).
  { intros p Hp. exists p.
    pose proof (drawn_positions_in_grid ctx p Hp) as Hg.
    split; [exact Hp |]. split; [exact Hg |]. split; [reflexivity |].
    split; [apply cell_square_inside, Hg |].
    intros q Hq. apply cell_square_apart. congruence. }
  apply elem_of_app in Hin as [Hin | Hin].
  - apply list_elem_of_fmap in Hin as (p & Heq & Hp).
    injection Heq as -> ->. split; [reflexivity |]. right.
    destruct (Hsq p Hp) as (p' & H1 & H2 & H3 & H4 & H5).
    exists p'. rewrite <- H3. auto.
  - apply elem_of_cons in Hin as [Hin | Hin].
    + injection Hin as -> ->. split; [reflexivity |].
      unfold last_rect.
      destruct (last (drawn_positions ctx)) as [p |] eqn:El.
      * right. cbn [fmap option_fmap option_map default].
        destruct (Hsq p (last_Some_elem_of _ _ El))
          as (p' & H1 & H2 & H3 & H4 & H5).
        exists p'. rewrite <- H3. auto.
      * left. apply last_None in El. split; [exact El | reflexivity].
    + apply elem_of_cons in Hin as [Hin | Hin]; [discriminate |].
      inversion Hin.
Qed.

Lemma frame_fills_geometry_witness :
  let r := cell_square (1, 2) in
  (OpFillRect r foreground ∈ ops (draw_frame blinker_v blank_renderer))
  /\ (OpFillRect r foreground ∉ ops blank_renderer)
  /\ rect_inside_window r.
Proof.
  intros r.
  assert (Hin : OpFillRect r foreground
                ∈ ops (draw_frame blinker_v blank_renderer)).
  { rewrite draw_frame_ops. apply elem_of_app. right. right.
    apply elem_of_app. right. left. }
  assert (Hold : OpFillRect r foreground ∉ ops blank_renderer)
    by (cbn [ops blank_renderer]; apply not_elem_of_nil).
  split; [exact Hin |]. split; [exact Hold |].
  destruct (frame_fills_geometry blinker_v blank_renderer r foreground
              Hin Hold) as [_ [[Hnone _] | (p & _ & _ & _ & Hins & _)]].
  - exfalso. revert Hnone. vm_compute. discriminate.
  - exact Hins.
Defined.

(** ** The run of the application *)

Lemma SDL_AppEvent_cases {RngState : Type}
    (SDL_rand : Z -> RngState -> Z * RngState) st ev g res st' g' :
  SDL_AppEvent SDL_rand st ev g = (res, st', g') ->
  window st' = window st /\ renderer st' = renderer st
  /\ last_step st' = last_step st
  /\ res <> SDL_APP_FAILURE
  /\ (res = SDL_APP_SUCCESS -> is_quit_event ev)
  /\ ((gol_ctx st' = gol_ctx st /\ g' = g)
      \/ (gol_ctx st', g') = gol_initialize SDL_rand (gol_ctx st) g).
Proof.
  unfold SDL_AppEvent, handle_key_event_, is_quit_event.
  destruct (event_type ev =? SDL_EVENT_QUIT) eqn:E1.
  { apply Z.eqb_eq in E1. intros H. injection H as <- <- <-.
    repeat split; try discriminate; auto. }
  destruct (event_type ev =? SDL_EVENT_KEY_DOWN) eqn:E2.
  2: { intros H. injection H as <- <- <-.
       repeat split; try discriminate; auto. }
  apply Z.eqb_eq in E2.
  destruct (key_scancode ev =? SDL_SCANCODE_ESCAPE) eqn:E3.
  { apply Z.eqb_eq in E3. intros H. injection H as <- <- <-.
    repeat split; try discriminate; auto. }
  destruct (key_scancode ev =? SDL_SCANCODE_Q) eqn:E4.
  { apply Z.eqb_eq in E4. intros H. injection H as <- <- <-.
    repeat split; try discriminate; auto. }
  destruct (key_scancode ev =? SDL_SCANCODE_R) eqn:E5.
  - destruct (gol_initialize SDL_rand (gol_ctx st) g) as [c1 g1].
    intros H. injection H as <- <- <-.
    repeat split; try discriminate; auto.
  - intros H. injection H as <- <- <-.
    repeat split; try discriminate; auto.
Qed.

Lemma run_app_total {RngState : Type}
    (SDL_rand : Z -> RngState -> Z * RngState) cbs st g :
  exists r, run_app SDL_rand max_catch_up cbs st g = Some r.
Proof.
  revert st g. induction cbs as [| cb cbs IH]; intros st g.
  - eexists. reflexivity.
  - destruct cb as [now | ev]; cbn [run_app].
    + destruct (SDL_AppIterate_total max_catch_up now st
                  (max_catch_up_enough now st)) as (out & -> & -> & _).
      apply IH.
    + destruct (SDL_AppEvent SDL_rand st ev g) as [[res st'] g'].
      destruct res; [apply IH | eexists; reflexivity ..].
Qed.

(** X12.  Over any run of frames and input events, from a well-formed
    grid of live and dead cells (as [SDL_AppInit] leaves it): every frame
    ends; the grid stays well formed with no byte other than 0 and 1; the
    window is never replaced; no callback returns [SDL_APP_FAILURE]; and
    the run ends with [SDL_APP_SUCCESS] only on an event that asks to
    quit. *)
Theorem run_app_invariant {RngState : Type}
    (SDL_rand : Z -> RngState -> Z * RngState) cbs st g :
  SDL_rand_range SDL_rand ->
  wf_ctx (gol_ctx st) -> binary_grid (cells (gol_ctx st)) ->
  (exists r, run_app SDL_rand max_catch_up cbs st g = Some r)
  /\ forall (fuel : nat) res st' g',
       run_app SDL_rand fuel cbs st g = Some (res, st', g') ->
       wf_ctx (gol_ctx st')
       /\ binary_grid (cells (gol_ctx st'))
       /\ window st' = window st
       /\ res <> SDL_APP_FAILURE
       /\ (res = SDL_APP_SUCCESS ->
           exists ev, (CbEvent ev ∈ cbs) /\ is_quit_event ev).
Proof.
  intros Hr Hwf Hb. split; [apply run_app_total |].
  intros fuel. revert st g Hwf Hb.
  induction cbs as [| cb cbs IH]; intros st g Hwf Hb res st' g' Hrun.
  - cbn [run_app] in Hrun. injection Hrun as <- <- <-.
    split; [exact Hwf |]. split; [exact Hb |]. split; [reflexivity |].
    split; discriminate.
  - destruct cb as [now | ev]; cbn [run_app] in Hrun.
    + destruct (SDL_AppIterate fuel now st) as [out |] eqn:E; [| discriminate].
      destruct (SDL_AppIterate_inv_full fuel now st out E)
        as (Hres & _ & _ & Hctx & Hwin & _).
      rewrite Hres in Hrun.
      assert (Hwf1 : wf_ctx (gol_ctx (frame_state out)))
        by (rewrite Hctx; apply (iter_gol_step_wf _ _ Hwf)).
      assert (Hb1 : binary_grid (cells (gol_ctx (frame_state out))))
        by (rewrite Hctx; apply (iter_gol_step_binary _ _ Hwf Hb)).
      destruct (IH (frame_state out) g Hwf1 Hb1 res st' g' Hrun)
        as (H1 & H2 & H3 & H4 & H5).
      split; [exact H1 |]. split; [exact H2 |].
      split; [rewrite H3; exact Hwin |]. split; [exact H4 |].
      intros Hs. destruct (H5 Hs) as (ev & Hev & Hq).
      exists ev. split; [right; exact Hev | exact Hq].
    + destruct (SDL_AppEvent SDL_rand st ev g) as [[r1 st1] g1] eqn:E.
      destruct (SDL_AppEvent_cases SDL_rand st ev g r1 st1 g1 E)
        as (Hwin & _ & _ & Hnf & Hq & Hctx).
      assert (Hinv : wf_ctx (gol_ctx st1) /\ binary_grid (cells (gol_ctx st1))).
      { destruct Hctx as [[-> _] | Hinit]; [split; assumption |].
        pose proof (gol_initialize_wf SDL_rand (gol_ctx st) g Hwf) as W.
        pose proof (gol_initialize_binary SDL_rand (gol_ctx st) g) as B.
        rewrite <- Hinit in W, B. split; assumption. }
      destruct Hinv as [Hwf1 Hb1].
      destruct r1.
      * destruct (IH st1 g1 Hwf1 Hb1 res st' g' Hrun)
          as (H1 & H2 & H3 & H4 & H5).
        split; [exact H1 |]. split; [exact H2 |].
        split; [rewrite H3; exact Hwin |]. split; [exact H4 |].
        intros Hs. destruct (H5 Hs) as (ev' & Hev & Hq').
        exists ev'. split; [right; exact Hev | exact Hq'].
      * injection Hrun as <- <- <-.
        split; [exact Hwf1 |]. split; [exact Hb1 |]. split; [exact Hwin |].
        split; [discriminate |]. intros _. exists ev.
        split; [left | apply Hq; reflexivity].
      * congruence.
Qed.

Lemma run_app_invariant_witness :
  let st := example_app blinker_v 1000 in
  let cbs := [CbFrame 1300; CbEvent (mkEvent SDL_EVENT_KEY_DOWN SDL_SCANCODE_R);
              CbFrame 1600; CbEvent (mkEvent SDL_EVENT_QUIT 0);
              CbFrame 1700] in
  SDL_rand_range lcg_rand /\ wf_ctx (gol_ctx st)
  /\ binary_grid (cells (gol_ctx st))
  /\ exists st' g',
       run_app lcg_rand 2 cbs st 7 = Some (SDL_APP_SUCCESS, st', g')
       /\ binary_grid (cells (gol_ctx st'))
       /\ window st' = window st.
Proof.
  intros st cbs.
  assert (Hwf : wf_ctx (gol_ctx st)) by (split; reflexivity).
  assert (Hb : binary_grid (cells (gol_ctx st)))
    by (apply (bool_decide_unpack _); vm_compute; exact I).
  split; [exact lcg_rand_range |]. split; [exact Hwf |]. split; [exact Hb |].
  eexists. eexists. split; [vm_compute; reflexivity |].
  destruct (run_app_invariant lcg_rand cbs st 7 lcg_rand_range Hwf Hb)
    as [_ Hall].
  destruct (Hall 2%nat SDL_APP_SUCCESS _ _ ltac:(vm_compute; reflexivity))
    as (_ & H2 & H3 & _).
  split; [exact H2 | exact H3].
Defined.

(** The clock over a run that no event ends. *)
Lemma run_app_clock_aux {RngState : Type}
    (SDL_rand : Z -> RngState -> Z * RngState) (fuel : nat) cbs st g st' g' :
  0 <= last_step st -> Sorted Z.le (last_step st :: frame_ticks cbs) ->
  Forall is_Uint64 (frame_ticks cbs) ->
  run_app SDL_rand fuel cbs st g = Some (SDL_APP_CONTINUE, st', g') ->
  match last (frame_ticks cbs) with
  | None => last_step st' = last_step st
  | Some now =>
      last_step st'
      = last_step st
        + Z.of_nat (Z.to_nat ((now - last_step st)
                              / STEP_RATE_IN_MILLISECONDS))
          * STEP_RATE_IN_MILLISECONDS
  end.
Proof.
  revert st g. induction cbs as [| cb cbs IH]; intros st g Hl Hs Hu Hrun.
  - cbn [run_app] in Hrun. injection Hrun as <- <-. reflexivity.
  - destruct cb as [t | ev]; cbn [run_app] in Hrun.
    + destruct (SDL_AppIterate fuel t st) as [out |] eqn:E; [| discriminate].
      destruct (SDL_AppIterate_inv_full fuel t st out E)
        as (Hres & Hk & Hlast1 & _).
      rewrite Hres in Hrun.
      change (frame_ticks (CbFrame t :: cbs)) with (t :: frame_ticks cbs)
        in *.
      apply Sorted_inv in Hs as [Hs Hhd]. apply HdRel_inv in Hhd.
      apply Forall_cons in Hu as [Ht Hu].
      destruct (catch_up_exact t st Ht ltac:(lia)) as (Hd & Hex & Hrem).
      rewrite Hd in Hk. rewrite <- Hk in Hex, Hrem.
      rewrite <- Hlast1 in Hex, Hrem.
      assert (Hl1 : 0 <= last_step (frame_state out) <= t)
        by (unfold STEP_RATE_IN_MILLISECONDS in *; lia).
      assert (Hs' : Sorted Z.le (last_step (frame_state out)
                                 :: frame_ticks cbs)).
      { constructor; [apply Sorted_inv in Hs as [Hs _]; exact Hs |].
        destruct (frame_ticks cbs); constructor.
        apply Sorted_inv in Hs as [_ H]. apply HdRel_inv in H. lia. }
      specialize (IH (frame_state out) g ltac:(lia) Hs' Hu Hrun).
      rewrite last_cons. destruct (last (frame_ticks cbs)) as [now |] eqn:El.
      * assert (Hnow : t <= now).
        { apply Sorted_StronglySorted in Hs;
            [| intros a b c; apply Z.le_trans].
          apply StronglySorted_inv in Hs as [_ Hall].
          rewrite Forall_forall in Hall.
          apply Hall, (last_Some_elem_of _ _ El). }
        rewrite IH, Hex. set (k1 := frame_steps out) in *.
        unfold STEP_RATE_IN_MILLISECONDS in *.
        replace (now - (last_step st + Z.of_nat k1 * 250))
          with (now - last_step st + (- Z.of_nat k1) * 250) by lia.
        rewrite Z.div_add by lia.
        assert (0 <= (now - last_step st) / 250) by (apply Z.div_pos; lia).
        assert (Z.of_nat k1 <= (now - last_step st) / 250)
          by (apply Z.div_le_lower_bound; lia).
        lia.
      * rewrite IH, Hex, Hk. reflexivity.
    + destruct (SDL_AppEvent SDL_rand st ev g) as [[r1 st1] g1] eqn:E.
      destruct (SDL_AppEvent_cases SDL_rand st ev g r1 st1 g1 E)
        as (_ & _ & Hclock & _).
      change (frame_ticks (CbEvent ev :: cbs)) with (frame_ticks cbs) in *.
      destruct r1; [| discriminate | discriminate].
      rewrite <- Hclock in *. apply (IH st1 g1); assumption.
Qed.

(** X14.  Input events do not disturb the clock: over any run of frames
    and events that no event ends, with tick counts that never decrease
    from [last_step], the clock after the run is [last_step] plus the
    whole periods that fit before the last tick count, as if there had
    been one frame and no event. *)
Theorem run_app_clock {RngState : Type}
    (SDL_rand : Z -> RngState -> Z * RngState) (fuel : nat) cbs st g st'
    g' now :
  0 <= last_step st -> Sorted Z.le (last_step st :: frame_ticks cbs) ->
  Forall is_Uint64 (frame_ticks cbs) ->
  last (frame_ticks cbs) = Some now ->
  run_app SDL_rand fuel cbs st g = Some (SDL_APP_CONTINUE, st', g') ->
  last_step st'
  = last_step st
    + (now - last_step st) / STEP_RATE_IN_MILLISECONDS
      * STEP_RATE_IN_MILLISECONDS
  /\ 0 <= now - last_step st' < STEP_RATE_IN_MILLISECONDS.
Proof.
  intros Hl Hs Hu Hlast Hrun.
  pose proof (run_app_clock_aux SDL_rand fuel cbs st g st' g' Hl Hs Hu Hrun)
    as Haux.
  rewrite Hlast in Haux.
  assert (Hnow : last_step st <= now).
  { apply Sorted_StronglySorted in Hs; [| intros a b c; apply Z.le_trans].
    apply StronglySorted_inv in Hs as [_ Hall].
    rewrite Forall_forall in Hall. apply Hall, (last_Some_elem_of _ _ Hlast). }
  unfold STEP_RATE_IN_MILLISECONDS in *.
  assert (0 <= (now - last_step st) / 250) by (apply Z.div_pos; lia).
  rewrite Z2Nat.id in Haux by lia.
  pose proof (Z.div_mod (now - last_step st) 250 ltac:(lia)).
  pose proof (Z.mod_pos_bound (now - last_step st) 250 ltac:(lia)).
  split; [exact Haux | lia].
Qed.

Lemma run_app_clock_witness :
  let st := example_app blinker_v 1000 in
  let cbs := [CbFrame 1300; CbEvent (mkEvent SDL_EVENT_KEY_DOWN SDL_SCANCODE_R);
              CbFrame 1600; CbEvent (mkEvent 0 0); CbFrame 1700] in
  0 <= last_step st /\ Sorted Z.le (last_step st :: frame_ticks cbs)
  /\ Forall is_Uint64 (frame_ticks cbs)
  /\ last (frame_ticks cbs) = Some 1700
  /\ exists st' g',
       run_app lcg_rand 2 cbs st 7 = Some (SDL_APP_CONTINUE, st', g')
       /\ last_step st' = 1500.
Proof.
  intros st cbs.
  assert (Hl : 0 <= last_step st) by (vm_compute; congruence).
  assert (Hs : Sorted Z.le (last_step st :: frame_ticks cbs))
    by (repeat constructor; vm_compute; congruence).
  assert (Hu : Forall is_Uint64 (frame_ticks cbs))
    by (repeat constructor; vm_compute; congruence).
  assert (Hlast : last (frame_ticks cbs) = Some 1700) by reflexivity.
  split; [exact Hl |]. split; [exact Hs |]. split; [exact Hu |].
  split; [exact Hlast |].
  eexists. eexists. split; [vm_compute; reflexivity |].
  exact (proj1 (run_app_clock lcg_rand 2 cbs st 7 _ _ 1700 Hl Hs Hu Hlast
                  ltac:(vm_compute; reflexivity))).
Defined.
